(** * Verification of the AWS Route53 provider of external-dns

    Shallow embedding of [provider/aws.go]: the construction of Route53
    changes from endpoints ([newChange]), the assignment of changes to
    hosted zones ([changesByZone]), the batch limiter ([limitChangeSet])
    and the submission loop ([submitChanges]).

    Go strings are [string]s of bytes, Go maps with string keys are
    [gmap string _], slices are lists, [int] is a 64-bit signed integer
    carried by [Z]. *)

From Stdlib Require Import ZArith Ascii.
From stdpp Require Import base numbers option list sorting gmap fin_maps strings.

Local Open Scope Z_scope.

(** ** Go runtime: machine integers *)

Module GoInt.

Definition min_int : Z := - 2 ^ 63.
Definition max_int : Z := 2 ^ 63 - 1.

(** A value of Go type [int] on a 64-bit platform. *)
Definition in_range (z : Z) : Prop := min_int ≤ z ≤ max_int.

(** Two's complement wrap-around of an integer result. *)
Definition wrap (z : Z) : Z := (z + 2 ^ 63) `mod` 2 ^ 64 - 2 ^ 63.

Definition sub (a b : Z) : Z := wrap (a - b).

(** [len(s)] of a slice. *)
Definition len {A} (l : list A) : Z := Z.of_nat (length l).

End GoInt.

(** ** Go runtime: strings *)

Module GoString.

Fixpoint drop (n : nat) (s : string) : string :=
  match n, s with
  | O, _ => s
  | S n', String _ s' => drop n' s'
  | S _, EmptyString => EmptyString
  end.

(** [strings.HasSuffix(s, suffix)]:
    [len(s) >= len(suffix) && s[len(s)-len(suffix):] == suffix]. *)
Definition HasSuffix (s suffix : string) : bool :=
  (String.length suffix <=? String.length s)%nat
  && String.eqb (drop (String.length s - String.length suffix) s) suffix.

(** [a < b] on strings: bytewise lexicographic comparison. *)
Definition lt (a b : string) : bool := String.ltb a b.

End GoString.

(** ** Go runtime: iteration over maps

    A [for k, v := range m] statement visits every entry of [m] exactly once,
    in an order the runtime chooses.  The order is an oracle: every function
    that ranges over a map takes it as a parameter, and every statement
    proved about such a function holds for all oracles. *)

Class MapRange := {
  range : ∀ V : Type, gmap string V → list (string * V);
  range_perm : ∀ V (m : gmap string V), range V m ≡ₚ map_to_list m
}.
Global Arguments range {_ _} _.

(** The order in which [map_to_list] enumerates the entries is one
    admissible oracle. *)
Definition range_canonical : MapRange :=
  {| range := λ V, map_to_list; range_perm := λ V m, reflexivity _ |}.

(** The reverse enumeration is another one. *)
Definition range_reversed : MapRange :=
  {| range := λ V m, reverse (map_to_list m);
     range_perm := λ V m, reverse_Permutation (map_to_list m) |}.

(** ** Go runtime: sorting

    [sort.SliceStable] and [sort.Strings] are modelled by a stable insertion
    sort: an element moves in front of its right neighbours only while it is
    strictly less than them, so elements that compare equal keep their
    relative order. *)

Section Sort.
Context {A : Type} (less : A → A → bool).

Fixpoint insert_sorted (x : A) (l : list A) : list A :=
  match l with
  | [] => [x]
  | y :: l' => if less y x then y :: insert_sorted x l' else x :: l
  end.

Fixpoint sort_stable (l : list A) : list A :=
  match l with
  | [] => []
  | x :: l' => insert_sorted x (sort_stable l')
  end.
End Sort.

(** [sort.Strings] *)
Definition sort_Strings (l : list string) : list string :=
  sort_stable GoString.lt l.

(** ** Data model *)

(** [aws.StringValue]: the pointed-to string, or the empty string for nil. *)
Definition StringValue (p : option string) : string := default ""%string p.

(** [route53.HostedZone]; the fields are pointers in the SDK. *)
Record HostedZone := {
  zone_Id : option string;
  zone_Name : option string;
  zone_PrivateZone : option bool
}.

(** [route53.AliasTarget] *)
Record AliasTarget := {
  alias_DNSName : string;
  alias_HostedZoneId : string;
  alias_EvaluateTargetHealth : bool
}.

(** [route53.Change] together with its [ResourceRecordSet].  [Action],
    [Name] and [Type] are always set by [newChange] and dereferenced
    without a nil check by the batch limiter, so they are plain strings here;
    [TTL] and [AliasTarget] stay optional and [ResourceRecords] carries the
    [Value] of each record. *)
Record Change := {
  Action : string;
  Name : string;
  Type_ : string;
  TTL : option Z;
  ResourceRecords : list string;
  AliasTarget_ : option AliasTarget
}.

(** [endpoint.Endpoint] *)
Record Endpoint := {
  DNSName : string;
  Target : string;
  RecordType : string;
  RecordTTL : Z
}.

Global Instance AliasTarget_eq_dec : EqDecision AliasTarget.
Proof. solve_decision. Defined.
Global Instance Change_eq_dec : EqDecision Change.
Proof. solve_decision. Defined.
Global Instance HostedZone_eq_dec : EqDecision HostedZone.
Proof. solve_decision. Defined.

(** ** Constants *)

Definition elbHostnameSuffix : string := ".elb.amazonaws.com".
Definition evaluateTargetHealth : bool := true.
Definition recordTTL : Z := 300.
Definition maxChangeCount : Z := 4000.

(** [route53.ChangeActionCreate] etc. and [route53.RRTypeA] of the SDK. *)
Definition ChangeActionCreate : string := "CREATE".
Definition ChangeActionUpsert : string := "UPSERT".
Definition ChangeActionDelete : string := "DELETE".
Definition RRTypeA : string := "A".

(** Modelled from the spec: the constant [endpoint.RecordTypeCNAME] of the
    [endpoint] package, the record type written [CNAME]. *)
Definition RecordTypeCNAME : string := "CNAME".

(** The entries of the [canonicalHostedZones] table, in source order. *)
Definition canonicalHostedZones_entries : list (string * string) :=
  [ ("us-east-1" +:+ elbHostnameSuffix, "Z35SXDOTRQ7X7K");
    ("us-east-2" +:+ elbHostnameSuffix, "Z3AADJGX6KTTL2");
    ("us-west-1" +:+ elbHostnameSuffix, "Z368ELLRRE2KJ0");
    ("us-west-2" +:+ elbHostnameSuffix, "Z1H1FL5HABSF5");
    ("ca-central-1" +:+ elbHostnameSuffix, "ZQSVJUPU6J1EY");
    ("ap-south-1" +:+ elbHostnameSuffix, "ZP97RAFLXTNZK");
    ("ap-northeast-2" +:+ elbHostnameSuffix, "ZWKZPGTI48KDX");
    ("ap-southeast-1" +:+ elbHostnameSuffix, "Z1LMS91P8CMLE5");
    ("ap-southeast-2" +:+ elbHostnameSuffix, "Z1GM3OXH4ZPM65");
    ("ap-northeast-1" +:+ elbHostnameSuffix, "Z14GRHDCWA56QT");
    ("eu-central-1" +:+ elbHostnameSuffix, "Z215JYRZR1TBD5");
    ("eu-west-1" +:+ elbHostnameSuffix, "Z32O12XQLNTSW2");
    ("eu-west-2" +:+ elbHostnameSuffix, "ZHURV8PSTC4K8");
    ("sa-east-1" +:+ elbHostnameSuffix, "Z2P70J7HTTTPLU") ]%string.

Definition canonicalHostedZones : gmap string string :=
  list_to_map canonicalHostedZones_entries.

(** ** Change construction *)

(** The body of the loop of [canonicalHostedZone] over the entries in the
    order the runtime visits them: the first entry whose key is a suffix of
    the hostname decides. *)
Fixpoint canonicalHostedZone_loop (entries : list (string * string))
    (hostname : string) : string :=
  match entries with
  | [] => ""
  | (suffix, zone) :: rest =>
      if GoString.HasSuffix hostname suffix then zone
      else canonicalHostedZone_loop rest hostname
  end.

Definition canonicalHostedZone `{MapRange} (hostname : string) : string :=
  canonicalHostedZone_loop (range canonicalHostedZones) hostname.

Definition isAWSLoadBalancer `{MapRange} (ep : Endpoint) : bool :=
  if String.eqb (RecordType ep) RecordTypeCNAME
  then negb (String.eqb (canonicalHostedZone (Target ep)) "")
  else false.

Section ChangeBuilder.
(** [endpoint.TTL.IsConfigured] belongs to the [endpoint] package; the
    builder is verified for every such predicate. *)
Variable IsConfigured : Z → bool.
Context `{MapRange}.

Definition newChange (action : string) (endpoint : Endpoint) : Change :=
  if isAWSLoadBalancer endpoint then
    {| Action := action;
       Name := DNSName endpoint;
       Type_ := RRTypeA;
       TTL := None;
       ResourceRecords := [];
       AliasTarget_ := Some
         {| alias_DNSName := Target endpoint;
            alias_HostedZoneId := canonicalHostedZone (Target endpoint);
            alias_EvaluateTargetHealth := evaluateTargetHealth |} |}
  else
    {| Action := action;
       Name := DNSName endpoint;
       Type_ := RecordType endpoint;
       TTL := Some (if negb (IsConfigured (RecordTTL endpoint))
                    then recordTTL
                    else RecordTTL endpoint);
       ResourceRecords := [Target endpoint];
       AliasTarget_ := None |}.

Definition newChanges (action : string) (endpoints : list Endpoint)
    : list Change :=
  map (newChange action) endpoints.
End ChangeBuilder.


(** ** Zone registry *)

(** Modelled from the spec: the zone registry [zoneIDName] with its methods
    [Add] and [FindZone], which the provider uses but which is declared in
    another file of the package.  The registry maps a zone identifier to the
    zone's domain-name suffix; [FindZone] answers with the entry whose suffix
    is the longest one matching the hostname, an earlier visited entry
    winning among suffixes of equal length, and with empty strings when no
    suffix matches. *)
Module zoneIDName.

Definition Add (zoneID zoneName : string) (z : gmap string string)
    : gmap string string :=
  <[zoneID := zoneName]> z.

(** One step of the search: [best] is the longest match seen so far. *)
Definition FindZone_step (hostname : string)
    (best : option (string * string)) (entry : string * string)
    : option (string * string) :=
  if GoString.HasSuffix hostname entry.2 then
    match best with
    | None => Some entry
    | Some b =>
        if (String.length b.2 <? String.length entry.2)%nat
        then Some entry else best
    end
  else best.

Definition FindZone `{MapRange} (z : gmap string string)
    (hostname : string) : string * string :=
  default (""%string, ""%string)
    (foldl (FindZone_step hostname) None (range z)).

End zoneIDName.

(** Modelled from the spec: [ensureTrailingDot], declared in another file of
    the package, normalizes a record name to end in the separator. *)
Definition ensureTrailingDot (hostname : string) : string :=
  if GoString.HasSuffix hostname "." then hostname else hostname +:+ ".".

(** ** Assignment of changes to zones *)

Section changesByZone.
Context `{MapRange}.

(** First loop: register every zone and create its empty bucket. *)
Definition changesByZone_register
    (acc : gmap string string * gmap string (list Change))
    (entry : string * HostedZone)
    : gmap string string * gmap string (list Change) :=
  let z := entry.2 in
  (zoneIDName.Add (StringValue (zone_Id z)) (StringValue (zone_Name z)) acc.1,
   <[StringValue (zone_Id z) := []]> acc.2).

(** Second loop: append the change to the bucket of its zone, or skip it. *)
Definition changesByZone_assign (zoneNameIDMapper : gmap string string)
    (changes : gmap string (list Change)) (c : Change)
    : gmap string (list Change) :=
  let hostname := ensureTrailingDot (Name c) in
  let zoneID := (zoneIDName.FindZone zoneNameIDMapper hostname).1 in
  if String.eqb zoneID "" then changes
  else <[zoneID := (changes !!! zoneID) ++ [c]]> changes.

(** Third loop: delete the buckets that stayed empty. *)
Definition changesByZone_prune (changes : gmap string (list Change))
    (entry : string * list Change) : gmap string (list Change) :=
  if GoInt.len entry.2 =? 0 then delete entry.1 changes else changes.

Definition changesByZone (zones : gmap string HostedZone)
    (changeSet : list Change) : gmap string (list Change) :=
  let init := foldl changesByZone_register (∅, ∅) (range zones) in
  let zoneNameIDMapper := init.1 in
  let changes :=
    foldl (changesByZone_assign zoneNameIDMapper) init.2 changeSet in
  foldl changesByZone_prune changes (range changes).
End changesByZone.

(** ** Batch limiter *)

(** The comparison function handed to [sort.SliceStable]. *)
Definition less_ActionNameType (a b : Change) : bool :=
  if GoString.lt (Action a) (Action b) then true
  else if GoString.lt (Action b) (Action a) then false
  else if GoString.lt (Name a) (Name b) then true
  else if GoString.lt (Name b) (Name a) then false
  else GoString.lt (Type_ a) (Type_ b).

Definition sortChangesByActionNameType (cs : list Change) : list Change :=
  sort_stable less_ActionNameType cs.

Section limitChangeSet.
Context `{MapRange}.

(** [changesByName[name] = append(changesByName[name], v)] *)
Definition limitChangeSet_group (changesByName : gmap string (list Change))
    (v : Change) : gmap string (list Change) :=
  <[Name v := (changesByName !!! Name v) ++ [v]]> changesByName.

(** The body of the selection loop for the name [name]. *)
Definition limitChangeSet_select (limit : Z)
    (changesByName : gmap string (list Change))
    (limCs : list Change) (name : string) : list Change :=
  let changes := changesByName !!! name in
  if GoInt.len changes <=? GoInt.sub limit (GoInt.len limCs)
  then limCs ++ changes else limCs.

Definition limitChangeSet (cs : list Change) (limit : Z) : list Change :=
  if GoInt.len cs <=? limit then cs
  else
    let changesByName := foldl limitChangeSet_group ∅ cs in
    let names := sort_Strings ((range changesByName).*1) in
    let limCs :=
      foldl (limitChangeSet_select limit changesByName) [] names in
    sortChangesByActionNameType limCs.
End limitChangeSet.

(** ** Submission *)

(** A Go [error] value. *)
Definition error : Type := string.

(** What [submitChanges] itself writes to its logger and asks of the
    Route53 client, in the order it happens.  The warning lines of
    [limitChangeSet] and the debug line of [changesByZone] are not recorded:
    both functions are modelled by what they return. *)
Inductive Event :=
| LogInfo_UpToDate
| LogInfo_DesiredChange (action name type : string)
| LogError (err : error)
| LogInfo_RecordsUpdated (zoneName : string)
| Call_ChangeResourceRecordSets (hostedZoneId : string) (batch : list Change).

(** How a call ends: it returns its [error] result ([None] is [nil]) or the
    goroutine panics. *)
Inductive Outcome :=
| Returned (err : option error)
| Panicked.

(** [plan.Changes] *)
Record Changes := {
  Create : list Endpoint;
  UpdateOld : list Endpoint;
  UpdateNew : list Endpoint;
  Delete : list Endpoint
}.

Section Provider.
(** The Route53 service behind the [Route53API] interface is a state
    machine of its own: [ListHostedZonesPages] hands the pages it delivers
    to the callback and then returns its error, and
    [ChangeResourceRecordSets] returns its error. *)
Context {Service : Type}.

Record Route53API := {
  ListHostedZonesPages :
    Service → Service * list (list HostedZone) * option error;
  ChangeResourceRecordSets :
    string → list Change → Service → Service * option error
}.

(** [AWSProvider]; the two filters stand for [DomainFilter.Match] and
    [ZoneTypeFilter.Match], which are declared elsewhere in the package. *)
Record AWSProvider := {
  client : Route53API;
  dryRun : bool;
  domainFilter : string → bool;
  zoneTypeFilter : HostedZone → bool
}.

(** The state a call runs in: the service and the events so far. *)
Definition World : Type := Service * list Event.

Definition emit (e : Event) (w : World) : World := (w.1, w.2 ++ [e]).

Context `{MapRange}.
Variable IsConfigured : Z → bool.

(** The callback of [Zones] on one hosted zone of a page. *)
Definition Zones_visit (p : AWSProvider) (zones : gmap string HostedZone)
    (zone : HostedZone) : gmap string HostedZone :=
  if negb (zoneTypeFilter p zone) then zones
  else if negb (domainFilter p (StringValue (zone_Name zone))) then zones
  else <[StringValue (zone_Id zone) := zone]> zones.

Definition Zones (p : AWSProvider) (w : World)
    : World * (gmap string HostedZone + error) :=
  let '(service, pages, err) := ListHostedZonesPages (client p) w.1 in
  let zones := foldl (foldl (Zones_visit p)) ∅ pages in
  match err with
  | Some e => ((service, w.2), inr e)
  | None => ((service, w.2), inl zones)
  end.

(** The body of the loop of [submitChanges] for the zone [z] with its
    changes [cs]; the boolean tells whether the body panicked, which
    dereferencing [zones[z]] does when [z] is no key of [zones]. *)
Definition submitChanges_zone (p : AWSProvider)
    (zones : gmap string HostedZone) (z : string) (cs : list Change)
    (w : World) : World * bool :=
  let limCs := limitChangeSet cs maxChangeCount in
  let w :=
    foldl (λ w c, emit (LogInfo_DesiredChange (Action c) (Name c) (Type_ c)) w)
      w limCs in
  if negb (dryRun p) then
    let w := emit (Call_ChangeResourceRecordSets z limCs) w in
    let '(service, err) := ChangeResourceRecordSets (client p) z limCs w.1 in
    let w := (service, w.2) in
    match err with
    | Some e => (emit (LogError e) w, false)
    | None =>
        match zones !! z with
        | Some zone =>
            (emit (LogInfo_RecordsUpdated (StringValue (zone_Name zone))) w,
             false)
        | None => (w, true)
        end
    end
  else (w, false).

Fixpoint submitChanges_loop (p : AWSProvider)
    (zones : gmap string HostedZone)
    (entries : list (string * list Change)) (w : World) : World * bool :=
  match entries with
  | [] => (w, false)
  | (z, cs) :: rest =>
      let '(w, panicked) := submitChanges_zone p zones z cs w in
      if panicked then (w, true) else submitChanges_loop p zones rest w
  end.

Definition submitChanges (p : AWSProvider) (changes : list Change)
    (w : World) : World * Outcome :=
  if GoInt.len changes =? 0 then (emit LogInfo_UpToDate w, Returned None)
  else
    let '(w, r) := Zones p w in
    match r with
    | inr err => (w, Returned (Some err))
    | inl zones =>
        let changesByZone := changesByZone zones changes in
        let '(w, panicked) :=
          submitChanges_loop p zones (range changesByZone) w in
        (w, if panicked then Panicked else Returned None)
    end.

Definition ApplyChanges (p : AWSProvider) (changes : Changes) (w : World)
    : World * Outcome :=
  let combinedChanges :=
    newChanges IsConfigured ChangeActionCreate (Create changes)
    ++ newChanges IsConfigured ChangeActionUpsert (UpdateNew changes)
    ++ newChanges IsConfigured ChangeActionDelete (Delete changes) in
  submitChanges p combinedChanges w.
End Provider.
Global Arguments Route53API : clear implicits.
Global Arguments AWSProvider : clear implicits.
Global Arguments World : clear implicits.

(** ** Reading the records *)

(** [strings.HasPrefix(s, prefix)]:
    [len(s) >= len(prefix) && s[0:len(prefix)] == prefix]. *)
Definition HasPrefix (s prefix : string) : bool :=
  (String.length prefix <=? String.length s)%nat
  && String.eqb (String.substring 0 (String.length prefix) s) prefix.

(** [strings.Replace(s, old, new, 1)]: the leftmost occurrence of [old] in
    [s] is replaced by [new]; without an occurrence [s] is returned. *)
Fixpoint Replace1 (s old new : string) : string :=
  if HasPrefix s old then new +:+ GoString.drop (String.length old) s
  else match s with
       | EmptyString => EmptyString
       | String c s' => String c (Replace1 s' old new)
       end.

(** The escape sequence Route53 stores for the asterisk of a wildcard. *)
Definition escapedAsterisk : string := "\052".

Definition wildcardUnescape (s : string) : string :=
  if HasPrefix s escapedAsterisk then Replace1 s escapedAsterisk "*" else s.

(** [route53.ResourceRecordSet] as the service lists it: the fields are
    pointers, [ResourceRecords] carries the [Value] pointer of each record
    and [AliasTarget], when present, the [DNSName] pointer of the target. *)
Record ResourceRecordSet := {
  rrs_Name : option string;
  rrs_Type : option string;
  rrs_TTL : option Z;
  rrs_ResourceRecords : list (option string);
  rrs_AliasTarget : option (option string)
}.

Section Records.
(** [supportedRecordType] and [endpoint.NewEndpointWithTTL] are declared
    elsewhere in the repository; [ListResourceRecordSetsPages] is the method
    of the [Route53API] interface that lists the record sets of the hosted
    zone with the given identifier: it hands the pages it delivers to the
    callback and then returns its error. *)
Context {Service : Type} `{MapRange}.
Variable supportedRecordType : string → bool.
Variable NewEndpointWithTTL : string → string → string → Z → Endpoint.
Variable ListResourceRecordSetsPages :
  option string → Service → Service * list (list ResourceRecordSet) * option error.

(** The body of the callback of [Records] for one record set. *)
Definition Records_visit (endpoints : list Endpoint) (r : ResourceRecordSet)
    : list Endpoint :=
  if negb (supportedRecordType (StringValue (rrs_Type r))) then endpoints
  else
    let ttl := match rrs_TTL r with Some t => t | None => 0 end in
    let endpoints :=
      foldl (λ endpoints rr,
               endpoints ++
               [NewEndpointWithTTL (wildcardUnescape (StringValue (rrs_Name r)))
                  (StringValue rr) (StringValue (rrs_Type r)) ttl])
        endpoints (rrs_ResourceRecords r) in
    match rrs_AliasTarget r with
    | Some dnsName =>
        endpoints ++
        [NewEndpointWithTTL (wildcardUnescape (StringValue (rrs_Name r)))
           (StringValue dnsName) RecordTypeCNAME ttl]
    | None => endpoints
    end.

(** The loop of [Records] over the zones in the order the runtime visits
    them; the first listing that fails ends the call. *)
Fixpoint Records_loop (entries : list (string * HostedZone))
    (service : Service) (endpoints : list Endpoint)
    : Service * (list Endpoint + error) :=
  match entries with
  | [] => (service, inl endpoints)
  | (_, z) :: rest =>
      let '(service, pages, err) :=
        ListResourceRecordSetsPages (zone_Id z) service in
      let endpoints := foldl (foldl Records_visit) endpoints pages in
      match err with
      | Some e => (service, inr e)
      | None => Records_loop rest service endpoints
      end
  end.

Definition Records (p : AWSProvider Service) (w : World Service)
    : World Service * (list Endpoint + error) :=
  let '(w, r) := Zones p w in
  match r with
  | inr err => (w, inr err)
  | inl zones =>
      let '(service, r) := Records_loop (range zones) w.1 [] in
      ((service, w.2), r)
  end.
End Records.

(** ** Single-purpose calls *)

Section SinglePurpose.
Context {Service : Type} `{MapRange}.
Variable IsConfigured : Z → bool.

Definition CreateRecords (p : AWSProvider Service) (endpoints : list Endpoint)
    (w : World Service) : World Service * Outcome :=
  submitChanges p (newChanges IsConfigured ChangeActionCreate endpoints) w.

Definition UpdateRecords (p : AWSProvider Service)
    (endpoints old : list Endpoint) (w : World Service)
    : World Service * Outcome :=
  submitChanges p (newChanges IsConfigured ChangeActionUpsert endpoints) w.

Definition DeleteRecords (p : AWSProvider Service) (endpoints : list Endpoint)
    (w : World Service) : World Service * Outcome :=
  submitChanges p (newChanges IsConfigured ChangeActionDelete endpoints) w.
End SinglePurpose.

(** ** Metrics label of a request *)

(** [strings.Split(path, "/")]: the parts of [path] between the slashes. *)
Fixpoint Split_slash (path : string) : list string :=
  match path with
  | EmptyString => [EmptyString]
  | String c rest =>
      if Ascii.eqb c "/" then EmptyString :: Split_slash rest
      else match Split_slash rest with
           | [] => [String c EmptyString]
           | part :: parts => String c part :: parts
           end
  end.

(** The [PathProcessor] callback [NewAWSProvider] installs in the
    instrumented HTTP client: [parts[len(parts)-1]], which panics on an
    empty slice. *)
Definition PathProcessor (path : string) : option string :=
  last (Split_slash path).

(** The record set a change carries to the service. *)
Definition ResourceRecordSet_of (c : Change) : ResourceRecordSet :=
  {| rrs_Name := Some (Name c);
     rrs_Type := Some (Type_ c);
     rrs_TTL := TTL c;
     rrs_ResourceRecords := Some <$> ResourceRecords c;
     rrs_AliasTarget := (λ a, Some (alias_DNSName a)) <$> AliasTarget_ c |}.

(** The endpoints [Records] makes of one record set. *)
Definition endpoints_of (supportedRecordType : string → bool)
    (NewEndpointWithTTL : string → string → string → Z → Endpoint)
    (r : ResourceRecordSet) : list Endpoint :=
  if supportedRecordType (StringValue (rrs_Type r)) then
    let name := wildcardUnescape (StringValue (rrs_Name r)) in
    let ttl := default 0 (rrs_TTL r) in
    map (λ rr, NewEndpointWithTTL name (StringValue rr)
                 (StringValue (rrs_Type r)) ttl) (rrs_ResourceRecords r)
    ++ match rrs_AliasTarget r with
       | Some dnsName =>
           [NewEndpointWithTTL name (StringValue dnsName) RecordTypeCNAME ttl]
       | None => []
       end
  else [].

(** A change is well formed for Route53 when it is an alias record set of
    type A without TTL and values, or a plain record set with a TTL and one
    value. *)
Definition well_formed (c : Change) : Prop :=
  (is_Some (AliasTarget_ c) ∧ Type_ c = RRTypeA ∧ TTL c = None
   ∧ ResourceRecords c = [])
  ∨ (AliasTarget_ c = None ∧ is_Some (TTL c)
     ∧ length (ResourceRecords c) = 1%nat).

(** ** Notions used to state the properties *)

(** The pairwise check of the keys, as a boolean the kernel evaluates. *)
Definition keys_suffix_free (entries : list (string * string)) : bool :=
  forallb (λ e1, forallb (λ e2,
    implb (GoString.HasSuffix e1.1 e2.1) (String.eqb e1.1 e2.1)) entries)
    entries.

(** The zone identifier [changesByZone] computes for a change: the answer of
    the registry for the normalized record name. *)
Definition zoneOf `{MapRange} (zoneNameIDMapper : gmap string string)
    (c : Change) : string :=
  (zoneIDName.FindZone zoneNameIDMapper (ensureTrailingDot (Name c))).1.

(** The registry [changesByZone] builds from the zones. *)
Definition registryOf `{MapRange} (zones : gmap string HostedZone)
    : gmap string string :=
  (foldl changesByZone_register (∅, ∅) (range zones)).1.

(** [a] may stand before [b] in a slice sorted by [less]. *)
Definition not_after {A : Type} (less : A → A → bool) (a b : A) : Prop :=
  less b a = false.

(** The changes of the change set [cs] that carry the record name [name]. *)
Definition group (cs : list Change) (name : string) : list Change :=
  filter (λ c, Name c = name) cs.

(** The selection of the batch limiter in the words of the specification:
    walk the names in the given order and take the whole group of a name
    exactly when it fits into what the limit leaves after the changes
    selected so far; a group that does not fit is skipped and the walk goes
    on with the next name. *)
Fixpoint greedy_walk (limit : Z) (cs : list Change) (names : list string)
    (selected : list Change) : list Change :=
  match names with
  | [] => selected
  | name :: rest =>
      if decide (Z.of_nat (length (group cs name))
                 ≤ limit - Z.of_nat (length selected))
      then greedy_walk limit cs rest (selected ++ group cs name)
      else greedy_walk limit cs rest selected
  end.

(** The calls of [ChangeResourceRecordSets] among the events, in order. *)
Definition calls_of (events : list Event) : list (string * list Change) :=
  omap (λ e, match e with
             | Call_ChangeResourceRecordSets z batch => Some (z, batch)
             | _ => None
             end) events.

(** The errors written to the log, in order. *)
Definition errors_of (events : list Event) : list error :=
  omap (λ e, match e with LogError err => Some err | _ => None end) events.

(** The log lines that announce a batch. *)
Definition desired_changes (limCs : list Change) : list Event :=
  map (λ c, LogInfo_DesiredChange (Action c) (Name c) (Type_ c)) limCs.

(** Every key of the zone map is the identifier of the zone it maps to. *)
Definition keyed_by_id (zones : gmap string HostedZone) : Prop :=
  ∀ key zone, zones !! key = Some zone → StringValue (zone_Id zone) = key.

(** ** Sample data *)

Definition sample_change (action name type : string) (ttl : Z) : Change :=
  {| Action := action; Name := name; Type_ := type; TTL := Some ttl;
     ResourceRecords := ["1.2.3.4"%string]; AliasTarget_ := None |}.

(** Three changes for the name [a.example.org.] and one for
    [b.example.org.]. *)
Definition sample_a1 : Change := sample_change "CREATE" "a.example.org." "A" 300.
Definition sample_a2 : Change := sample_change "CREATE" "a.example.org." "TXT" 300.
Definition sample_a3 : Change := sample_change "DELETE" "a.example.org." "A" 300.
Definition sample_b1 : Change := sample_change "CREATE" "b.example.org." "A" 300.

(** Two changes that agree on action, name and type and differ in the TTL. *)
Definition sample_t1 : Change := sample_change "UPSERT" "t.example.org." "A" 60.
Definition sample_t2 : Change := sample_change "UPSERT" "t.example.org." "A" 120.
Definition sample_z1 : Change := sample_change "CREATE" "z.example.org." "A" 300.

(** A service with two hosted zones that lists them and rejects every
    change batch, and a provider for it outside dry-run mode. *)
Definition sample_zone (id name : string) : HostedZone :=
  {| zone_Id := Some id; zone_Name := Some name; zone_PrivateZone := None |}.

Definition rejecting_client : Route53API unit :=
  {| ListHostedZonesPages := λ s,
       (s, [[sample_zone "Z1" "example.org."; sample_zone "Z2" "example.com."]],
        None);
     ChangeResourceRecordSets := λ _ _ s, (s, Some "Throttling"%string) |}.

Definition rejecting_provider : AWSProvider unit :=
  {| client := rejecting_client; dryRun := false;
     domainFilter := λ _, true; zoneTypeFilter := λ _, true |}.

(** A service whose zone listing fails. *)
Definition unreachable_client : Route53API unit :=
  {| ListHostedZonesPages := λ s, (s, [], Some "RequestError"%string);
     ChangeResourceRecordSets := λ _ _ s, (s, None) |}.

Definition unreachable_provider : AWSProvider unit :=
  {| client := unreachable_client; dryRun := false;
     domainFilter := λ _, true; zoneTypeFilter := λ _, true |}.

Definition sample_c1 : Change := sample_change "CREATE" "www.example.com." "A" 300.

(** An endpoint that points at a load balancer in [eu-west-1], with a TTL,
    and one that points at an address. *)
Definition sample_elb_endpoint : Endpoint :=
  {| DNSName := "app.example.org";
     Target := "lb-1234.eu-west-1.elb.amazonaws.com";
     RecordType := "CNAME"; RecordTTL := 60 |}.

Definition sample_plain_endpoint : Endpoint :=
  {| DNSName := "www.example.org"; Target := "1.2.3.4";
     RecordType := "A"; RecordTTL := 0 |}.

(** [endpoint.TTL.IsConfigured] as a positive TTL. *)
Definition sample_IsConfigured (ttl : Z) : bool := 0 <? ttl.

(** The registry of the example of the specification: a zone and a
    subdomain zone. *)
Definition sample_registry : gmap string string :=
  zoneIDName.Add "z2" "sub.example.com."
    (zoneIDName.Add "z1" "example.com." ∅).

Definition sample_zones : gmap string HostedZone :=
  <["Z1"%string := sample_zone "Z1" "example.org."]>
    (<["Z2"%string := sample_zone "Z2" "example.com."]> ∅).

Definition sample_outside : Change :=
  sample_change "CREATE" "foo.unknown-domain.net." "A" 300.

Definition sample_changes : list Change :=
  [sample_a1; sample_c1; sample_b1; sample_outside].

(** The lexicographic order on action, name and type in which
    [sortChangesByActionNameType] arranges a slice. *)
Definition ActionNameType_le (a b : Change) : Prop :=
  GoString.lt (Action a) (Action b) = true
  ∨ (Action a = Action b
     ∧ (GoString.lt (Name a) (Name b) = true
        ∨ (Name a = Name b ∧ GoString.lt (Type_ b) (Type_ a) = false))).

(** The record sets the service delivers when it is asked for the zones
    one after the other, starting in the state [service]. *)
Fixpoint Records_listed {Service : Type}
    (ListResourceRecordSetsPages :
       option string → Service
       → Service * list (list ResourceRecordSet) * option error)
    (entries : list (string * HostedZone)) (service : Service)
    : list ResourceRecordSet :=
  match entries with
  | [] => []
  | (_, z) :: rest =>
      let r := ListResourceRecordSetsPages (zone_Id z) service in
      concat r.1.2 ++ Records_listed ListResourceRecordSetsPages rest r.1.1
  end.

(** Whether a string holds a slash. *)
Fixpoint contains_slash (s : string) : bool :=
  match s with
  | EmptyString => false
  | String c rest => Ascii.eqb c "/" || contains_slash rest
  end.

(** A provider in dry-run mode for the service that rejects every batch. *)
Definition dry_provider : AWSProvider unit :=
  {| client := rejecting_client; dryRun := true;
     domainFilter := λ _, true; zoneTypeFilter := λ _, true |}.

(** Record types, endpoints and record listings for the samples: a wildcard
    address record, an alias record and a record of a type that is not
    supported, the same for every zone. *)
Definition sample_supportedRecordType (recordType : string) : bool :=
  bool_decide (recordType ∈ ["A"; "CNAME"; "TXT"]%string).

Definition sample_NewEndpointWithTTL (dnsName target recordType : string)
    (ttl : Z) : Endpoint :=
  {| DNSName := dnsName; Target := target; RecordType := recordType;
     RecordTTL := ttl |}.

Definition sample_record_sets : list ResourceRecordSet :=
  [ {| rrs_Name := Some "\052.example.org."%string; rrs_Type := Some "A"%string;
       rrs_TTL := Some 60;
       rrs_ResourceRecords := [Some "1.2.3.4"; Some "5.6.7.8"]%string;
       rrs_AliasTarget := None |};
    {| rrs_Name := Some "lb.example.org."%string; rrs_Type := Some "A"%string;
       rrs_TTL := None; rrs_ResourceRecords := [];
       rrs_AliasTarget := Some (Some "lb-1.eu-west-1.elb.amazonaws.com."%string) |};
    {| rrs_Name := Some "example.org."%string; rrs_Type := Some "NS"%string;
       rrs_TTL := Some 172800;
       rrs_ResourceRecords := [Some "ns-1.awsdns.org."%string];
       rrs_AliasTarget := None |} ].

Definition sample_listing (hostedZoneId : option string) (service : unit)
    : unit * list (list ResourceRecordSet) * option error :=
  (service, [sample_record_sets], None).

Definition denied_listing (hostedZoneId : option string) (service : unit)
    : unit * list (list ResourceRecordSet) * option error :=
  (service, [], Some "AccessDenied"%string).

(** * Properties *)

(** ** Strings *)

Section StringFacts.
Implicit Types s p suffix : string.

Lemma append_nil s : ""%string +:+ s = s.
Proof. reflexivity. Qed.

Lemma append_cons a p s : String a p +:+ s = String a (p +:+ s).
Proof. reflexivity. Qed.

Lemma length_append p s :
  String.length (p +:+ s) = (String.length p + String.length s)%nat.
Proof.
  induction p as [|a p IH]; [done|]. rewrite append_cons. simpl. by rewrite IH.
Qed.

Lemma drop_append p s : GoString.drop (String.length p) (p +:+ s) = s.
Proof.
  induction p as [|a p IH]; [by destruct s|]. by rewrite append_cons.
Qed.

Lemma drop_split n s : ∃ p, s = p +:+ GoString.drop n s.
Proof.
  revert s. induction n as [|n IH]; intros s.
  - by exists ""%string.
  - destruct s as [|a s]; simpl.
    + by exists ""%string.
    + destruct (IH s) as [p Hp]. exists (String a p).
      rewrite append_cons. by f_equal.
Qed.

Lemma HasSuffix_true s suffix :
  GoString.HasSuffix s suffix = true ↔ ∃ p, s = p +:+ suffix.
Proof.
  unfold GoString.HasSuffix. rewrite andb_true_iff, Nat.leb_le, String.eqb_eq.
  split.
  - intros [_ Hd]. destruct (drop_split (String.length s - String.length suffix) s)
      as [p Hp]. exists p. by rewrite Hd in Hp.
  - intros [p ->]. rewrite length_append. split; [lia|].
    replace (String.length p + String.length suffix - String.length suffix)%nat
      with (String.length p) by lia.
    apply drop_append.
Qed.

Lemma HasSuffix_refl s : GoString.HasSuffix s s = true.
Proof. apply HasSuffix_true. by exists ""%string. Qed.

Lemma HasSuffix_length s suffix :
  GoString.HasSuffix s suffix = true →
  (String.length suffix ≤ String.length s)%nat.
Proof. intros [p ->]%HasSuffix_true. rewrite length_append. lia. Qed.

Lemma append_assoc s1 s2 s3 : (s1 +:+ s2) +:+ s3 = s1 +:+ (s2 +:+ s3).
Proof. induction s1 as [|a s1 IH]; [done|]. by rewrite !append_cons, IH. Qed.

Lemma append_split_total p1 s1 p2 s2 :
  p1 +:+ s1 = p2 +:+ s2 → (String.length s1 ≤ String.length s2)%nat →
  ∃ q, s2 = q +:+ s1.
Proof.
  revert p2. induction p1 as [|a p1 IH]; intros p2 Heq Hlen.
  - rewrite append_nil in Heq. subst s1. rewrite length_append in Hlen.
    destruct p2 as [|b p2]; [by exists ""%string|simpl in Hlen; lia].
  - destruct p2 as [|b p2]; rewrite ?append_nil, ?append_cons in Heq.
    + by exists (String a p1).
    + injection Heq as -> Heq. by apply (IH p2).
Qed.

(** Two suffixes of one string: the shorter is a suffix of the longer. *)
Lemma HasSuffix_total s suffix1 suffix2 :
  GoString.HasSuffix s suffix1 = true →
  GoString.HasSuffix s suffix2 = true →
  (String.length suffix1 ≤ String.length suffix2)%nat →
  GoString.HasSuffix suffix2 suffix1 = true.
Proof.
  intros [p1 Hp1]%HasSuffix_true [p2 Hp2]%HasSuffix_true Hlen.
  apply HasSuffix_true. apply (append_split_total p1 suffix1 p2 suffix2); [|done].
  by rewrite <-Hp1, <-Hp2.
Qed.

Lemma HasSuffix_same_length s suffix :
  GoString.HasSuffix s suffix = true →
  String.length s = String.length suffix → s = suffix.
Proof.
  intros [p ->]%HasSuffix_true. rewrite length_append.
  destruct p; simpl; [done|lia].
Qed.
End StringFacts.

(** ** The table of canonical hosted zones *)

Lemma canonicalHostedZones_keys_NoDup : NoDup canonicalHostedZones_entries.*1.
Proof. apply (bool_decide_unpack _). vm_compute. exact I. Qed.

Lemma canonicalHostedZones_lookup suffix zone :
  canonicalHostedZones !! suffix = Some zone
  ↔ (suffix, zone) ∈ canonicalHostedZones_entries.
Proof.
  symmetry. apply elem_of_list_to_map, canonicalHostedZones_keys_NoDup.
Qed.

Lemma canonicalHostedZones_range `{MapRange} :
  range canonicalHostedZones ≡ₚ canonicalHostedZones_entries.
Proof.
  rewrite range_perm. apply map_to_list_to_map, canonicalHostedZones_keys_NoDup.
Qed.

Lemma canonicalHostedZones_elem_of_range `{MapRange} suffix zone :
  (suffix, zone) ∈ range canonicalHostedZones
  ↔ canonicalHostedZones !! suffix = Some zone.
Proof. by rewrite range_perm, elem_of_map_to_list. Qed.

Lemma canonicalHostedZones_suffix_free suffix1 zone1 suffix2 zone2 :
  canonicalHostedZones !! suffix1 = Some zone1 →
  canonicalHostedZones !! suffix2 = Some zone2 →
  GoString.HasSuffix suffix1 suffix2 = true → suffix1 = suffix2.
Proof.
  rewrite !canonicalHostedZones_lookup. intros H1 H2 Hs.
  assert (keys_suffix_free canonicalHostedZones_entries = true) as Hfree
    by (vm_compute; reflexivity).
  unfold keys_suffix_free in Hfree. rewrite forallb_forall in Hfree.
  apply list_elem_of_In, Hfree in H1. rewrite forallb_forall in H1.
  apply list_elem_of_In, H1 in H2. simpl in H2. rewrite Hs in H2.
  by apply String.eqb_eq.
Qed.

Lemma canonicalHostedZones_nonempty suffix zone :
  canonicalHostedZones !! suffix = Some zone → zone ≠ ""%string.
Proof.
  rewrite canonicalHostedZones_lookup. intros Hin.
  assert (forallb (λ e, negb (String.eqb e.2 "")) canonicalHostedZones_entries
          = true) as Hall by (vm_compute; reflexivity).
  rewrite forallb_forall in Hall. apply list_elem_of_In, Hall in Hin.
  simpl in Hin. apply negb_true_iff, String.eqb_neq in Hin. done.
Qed.

(** At most one key of the table is a suffix of a given hostname. *)
Lemma canonicalHostedZones_match_unique hostname suffix1 zone1 suffix2 zone2 :
  canonicalHostedZones !! suffix1 = Some zone1 →
  canonicalHostedZones !! suffix2 = Some zone2 →
  GoString.HasSuffix hostname suffix1 = true →
  GoString.HasSuffix hostname suffix2 = true →
  suffix1 = suffix2 ∧ zone1 = zone2.
Proof.
  intros H1 H2 Hs1 Hs2.
  assert (suffix1 = suffix2) as ->; [|split; congruence].
  destruct (Nat.le_ge_cases (String.length suffix1) (String.length suffix2)).
  - symmetry. eapply canonicalHostedZones_suffix_free; [done..|].
    by eapply HasSuffix_total.
  - eapply canonicalHostedZones_suffix_free; [done..|].
    by eapply HasSuffix_total.
Qed.

(** ** The first-match loop *)

Lemma canonicalHostedZone_loop_none entries hostname :
  (∀ suffix zone, (suffix, zone) ∈ entries →
     GoString.HasSuffix hostname suffix = false) →
  canonicalHostedZone_loop entries hostname = ""%string.
Proof.
  induction entries as [|[suffix zone] rest IH]; intros Hnone; simpl; [done|].
  rewrite (Hnone suffix zone) by left.
  apply IH. intros s z Hin. apply (Hnone s z). by right.
Qed.

Lemma canonicalHostedZone_loop_some entries hostname suffix zone :
  (suffix, zone) ∈ entries →
  GoString.HasSuffix hostname suffix = true →
  (∀ suffix' zone', (suffix', zone') ∈ entries →
     GoString.HasSuffix hostname suffix' = true → zone' = zone) →
  canonicalHostedZone_loop entries hostname = zone.
Proof.
  induction entries as [|[s z] rest IH]; intros Hin Hs Huniq; simpl.
  { by apply elem_of_nil in Hin. }
  destruct (GoString.HasSuffix hostname s) eqn:Hhs.
  - apply (Huniq s z); [by left|done].
  - apply elem_of_cons in Hin as [[= -> ->]|Hin]; [congruence|].
    apply IH; [done..|]. intros s' z' Hin'. apply (Huniq s' z'). by right.
Qed.

Lemma canonicalHostedZone_some `{MapRange} hostname suffix zone :
  canonicalHostedZones !! suffix = Some zone →
  GoString.HasSuffix hostname suffix = true →
  canonicalHostedZone hostname = zone.
Proof.
  intros Hl Hs. unfold canonicalHostedZone.
  apply (canonicalHostedZone_loop_some _ _ suffix); [|done|].
  - by apply canonicalHostedZones_elem_of_range.
  - intros s' z' Hin%canonicalHostedZones_elem_of_range Hs'.
    by destruct (canonicalHostedZones_match_unique hostname s' z' suffix zone).
Qed.

Lemma canonicalHostedZone_none `{MapRange} hostname :
  (∀ suffix zone, canonicalHostedZones !! suffix = Some zone →
     GoString.HasSuffix hostname suffix = false) →
  canonicalHostedZone hostname = ""%string.
Proof.
  intros Hnone. apply canonicalHostedZone_loop_none.
  intros s z Hin%canonicalHostedZones_elem_of_range. eauto.
Qed.

(** Either some key matches the hostname or none does. *)
Lemma canonicalHostedZones_match_dec hostname :
  (∃ suffix zone, canonicalHostedZones !! suffix = Some zone
     ∧ GoString.HasSuffix hostname suffix = true)
  ∨ (∀ suffix zone, canonicalHostedZones !! suffix = Some zone →
       GoString.HasSuffix hostname suffix = false).
Proof.
  destruct (decide (Exists (λ e, GoString.HasSuffix hostname e.1 = true)
              canonicalHostedZones_entries)) as [Hex|Hno].
  - left. apply Exists_exists in Hex as [[s z] [Hin Hs]].
    exists s, z. by rewrite canonicalHostedZones_lookup.
  - right. intros s z Hin%canonicalHostedZones_lookup.
    apply not_true_is_false. intros Hs. apply Hno, Exists_exists.
    by exists (s, z).
Qed.

(** ** Change construction *)

Lemma isAWSLoadBalancer_true `{MapRange} ep suffix zone :
  RecordType ep = RecordTypeCNAME →
  canonicalHostedZones !! suffix = Some zone →
  GoString.HasSuffix (Target ep) suffix = true →
  isAWSLoadBalancer ep = true.
Proof.
  intros Ht Hl Hs. unfold isAWSLoadBalancer.
  rewrite Ht, String.eqb_refl, (canonicalHostedZone_some _ suffix zone) by done.
  apply negb_true_iff, String.eqb_neq. by eapply canonicalHostedZones_nonempty.
Qed.

Lemma isAWSLoadBalancer_false `{MapRange} ep :
  RecordType ep ≠ RecordTypeCNAME
  ∨ (∀ suffix zone, canonicalHostedZones !! suffix = Some zone →
       GoString.HasSuffix (Target ep) suffix = false) →
  isAWSLoadBalancer ep = false.
Proof.
  intros [Ht|Hnone]; unfold isAWSLoadBalancer.
  - apply String.eqb_neq in Ht. by rewrite Ht.
  - rewrite canonicalHostedZone_none by done. by destruct (String.eqb _ _).
Qed.

(** C3: an endpoint of type CNAME whose target ends in a key of the table
    becomes an alias change of type A that points at the zone the table gives
    for that key, with target health evaluation switched on; every other
    endpoint becomes a literal change of the endpoint's own type whose only
    record value is the target and whose TTL is the endpoint's when it is
    configured and 300 otherwise. *)
Theorem newChange_alias_or_literal
    (IsConfigured : Z → bool) `{MapRange} (action : string) (ep : Endpoint) :
  (∀ suffix zone,
     RecordType ep = RecordTypeCNAME →
     canonicalHostedZones !! suffix = Some zone →
     GoString.HasSuffix (Target ep) suffix = true →
     newChange IsConfigured action ep =
       {| Action := action; Name := DNSName ep; Type_ := "A";
          TTL := None; ResourceRecords := [];
          AliasTarget_ := Some {| alias_DNSName := Target ep;
                                  alias_HostedZoneId := zone;
                                  alias_EvaluateTargetHealth := true |} |})
  ∧ (RecordType ep ≠ RecordTypeCNAME
     ∨ (∀ suffix zone, canonicalHostedZones !! suffix = Some zone →
          GoString.HasSuffix (Target ep) suffix = false) →
     newChange IsConfigured action ep =
       {| Action := action; Name := DNSName ep; Type_ := RecordType ep;
          TTL := Some (if IsConfigured (RecordTTL ep)
                       then RecordTTL ep else 300);
          ResourceRecords := [Target ep];
          AliasTarget_ := None |}).
Proof.
  split.
  - intros suffix zone Ht Hl Hs. unfold newChange.
    rewrite (isAWSLoadBalancer_true ep suffix zone) by done.
    by rewrite (canonicalHostedZone_some _ suffix zone).
  - intros Hother. unfold newChange.
    rewrite isAWSLoadBalancer_false by done.
    by destruct (IsConfigured (RecordTTL ep)).
Qed.

(** C9: the change built for an endpoint recognized as a load balancer has
    no TTL and no resource records, whatever TTL the endpoint carries; it
    consists of the action, the name, the type and the alias target. *)
Theorem newChange_alias_ignores_ttl
    (IsConfigured : Z → bool) `{MapRange} (action : string) (ep : Endpoint)
    (suffix zone : string) :
  RecordType ep = RecordTypeCNAME →
  canonicalHostedZones !! suffix = Some zone →
  GoString.HasSuffix (Target ep) suffix = true →
  isAWSLoadBalancer ep = true
  ∧ TTL (newChange IsConfigured action ep) = None
  ∧ ResourceRecords (newChange IsConfigured action ep) = []
  ∧ AliasTarget_ (newChange IsConfigured action ep) =
      Some {| alias_DNSName := Target ep;
              alias_HostedZoneId := zone;
              alias_EvaluateTargetHealth := true |}
  ∧ ∀ ttl, newChange IsConfigured action
             {| DNSName := DNSName ep; Target := Target ep;
                RecordType := RecordType ep; RecordTTL := ttl |}
           = newChange IsConfigured action ep.
Proof.
  intros Ht Hl Hs.
  pose proof (isAWSLoadBalancer_true ep suffix zone Ht Hl Hs) as Hlb.
  unfold newChange. rewrite Hlb. simpl.
  rewrite (canonicalHostedZone_some _ suffix zone) by done.
  split_and!; try done. intros ttl.
  by rewrite (isAWSLoadBalancer_true _ suffix zone).
Qed.

(** C10: no key of the table is a suffix of another key, hence at most one
    key is a suffix of a given hostname, and [canonicalHostedZone] and
    [isAWSLoadBalancer] return the same result in whatever order the map is
    visited. *)
Theorem canonicalHostedZone_order_independent :
  (∀ suffix1 zone1 suffix2 zone2,
     canonicalHostedZones !! suffix1 = Some zone1 →
     canonicalHostedZones !! suffix2 = Some zone2 →
     GoString.HasSuffix suffix1 suffix2 = true → suffix1 = suffix2)
  ∧ (∀ hostname suffix1 zone1 suffix2 zone2,
       canonicalHostedZones !! suffix1 = Some zone1 →
       canonicalHostedZones !! suffix2 = Some zone2 →
       GoString.HasSuffix hostname suffix1 = true →
       GoString.HasSuffix hostname suffix2 = true →
       suffix1 = suffix2 ∧ zone1 = zone2)
  ∧ (∀ (R1 R2 : MapRange) hostname,
       @canonicalHostedZone R1 hostname = @canonicalHostedZone R2 hostname)
  ∧ (∀ (R1 R2 : MapRange) ep,
       @isAWSLoadBalancer R1 ep = @isAWSLoadBalancer R2 ep).
Proof.
  assert (∀ (R1 R2 : MapRange) hostname,
    @canonicalHostedZone R1 hostname = @canonicalHostedZone R2 hostname) as Hdet.
  { intros R1 R2 hostname.
    destruct (canonicalHostedZones_match_dec hostname) as [(s & z & Hl & Hs)|Hno].
    - by rewrite !(canonicalHostedZone_some _ s z).
    - by rewrite !canonicalHostedZone_none. }
  split_and!.
  - apply canonicalHostedZones_suffix_free.
  - apply canonicalHostedZones_match_unique.
  - done.
  - intros R1 R2 ep. unfold isAWSLoadBalancer. by rewrite (Hdet R1 R2).
Qed.

(** ** Zone registry *)

Section FindZone.
Import zoneIDName.

(** What the search knows after visiting [entries]. *)
Lemma FindZone_fold hostname (entries : list (string * string)) :
  match foldl (FindZone_step hostname) None entries with
  | None => ∀ e, e ∈ entries → GoString.HasSuffix hostname e.2 = false
  | Some b =>
      b ∈ entries ∧ GoString.HasSuffix hostname b.2 = true
      ∧ ∀ e, e ∈ entries → GoString.HasSuffix hostname e.2 = true →
          (String.length e.2 ≤ String.length b.2)%nat
  end.
Proof.
  induction entries as [|e entries IH] using rev_ind.
  { simpl. intros e He. by apply elem_of_nil in He. }
  rewrite foldl_snoc. unfold FindZone_step at 1.
  destruct (GoString.HasSuffix hostname e.2) eqn:Hs.
  - destruct (foldl _ _ entries) as [b|].
    + destruct IH as (Hb & Hbs & Hmax).
      destruct (String.length b.2 <? String.length e.2)%nat eqn:Hlt.
      * apply Nat.ltb_lt in Hlt. split_and!; [set_solver|done|].
        intros e' [He'|He']%elem_of_app Hs'.
        -- specialize (Hmax e' He' Hs'). lia.
        -- apply list_elem_of_singleton in He' as ->. lia.
      * apply Nat.ltb_ge in Hlt. split_and!; [set_solver|done|].
        intros e' [He'|He']%elem_of_app Hs'.
        -- by apply Hmax.
        -- by apply list_elem_of_singleton in He' as ->.
    + split_and!; [set_solver|done|].
      intros e' [He'|He']%elem_of_app Hs'.
      * by rewrite IH in Hs'.
      * by apply list_elem_of_singleton in He' as ->.
  - destruct (foldl _ _ entries) as [b|].
    + destruct IH as (Hb & Hbs & Hmax). split_and!; [set_solver|done|].
      intros e' [He'|He']%elem_of_app Hs'.
      * by apply Hmax.
      * apply list_elem_of_singleton in He' as ->. congruence.
    + intros e' [He'|He']%elem_of_app.
      * by apply IH.
      * by apply list_elem_of_singleton in He' as ->.
Qed.

Context `{MapRange}.

Lemma FindZone_none (z : gmap string string) hostname :
  (∀ zoneID zoneName, z !! zoneID = Some zoneName →
     GoString.HasSuffix hostname zoneName = false) →
  FindZone z hostname = (""%string, ""%string).
Proof.
  intros Hnone. unfold FindZone.
  pose proof (FindZone_fold hostname (range z)) as Hfold.
  destruct (foldl _ _ _) as [[i n]|]; [|done].
  destruct Hfold as (Hin & Hs & _).
  rewrite range_perm in Hin. apply elem_of_map_to_list in Hin.
  simpl in Hs. by rewrite (Hnone i n) in Hs.
Qed.

Lemma FindZone_some (z : gmap string string) hostname zoneID zoneName :
  z !! zoneID = Some zoneName →
  GoString.HasSuffix hostname zoneName = true →
  z !! (FindZone z hostname).1 = Some (FindZone z hostname).2
  ∧ GoString.HasSuffix hostname (FindZone z hostname).2 = true
  ∧ ∀ zoneID' zoneName', z !! zoneID' = Some zoneName' →
      GoString.HasSuffix hostname zoneName' = true →
      (String.length zoneName' ≤ String.length (FindZone z hostname).2)%nat.
Proof.
  intros Hl Hs. unfold FindZone.
  pose proof (FindZone_fold hostname (range z)) as Hfold.
  destruct (foldl _ _ _) as [[i n]|]; simpl.
  - destruct Hfold as (Hin & Hs' & Hmax).
    rewrite range_perm in Hin. apply elem_of_map_to_list in Hin.
    split_and!; [done..|]. intros i' n' Hl' Hs''.
    apply (Hmax (i', n')); [|done].
    rewrite range_perm. by apply elem_of_map_to_list.
  - specialize (Hfold (zoneID, zoneName)). simpl in Hfold.
    rewrite Hfold in Hs; [done|].
    rewrite range_perm. by apply elem_of_map_to_list.
Qed.

Lemma FindZone_lookup (z : gmap string string) hostname :
  FindZone z hostname = (""%string, ""%string)
  ∨ z !! (FindZone z hostname).1 = Some (FindZone z hostname).2.
Proof.
  unfold FindZone.
  pose proof (FindZone_fold hostname (range z)) as Hfold.
  destruct (foldl _ _ _) as [[i n]|]; simpl; [right|by left].
  destruct Hfold as (Hin & _). rewrite range_perm in Hin.
  by apply elem_of_map_to_list in Hin.
Qed.
End FindZone.

Lemma ensureTrailingDot_HasSuffix hostname :
  GoString.HasSuffix (ensureTrailingDot hostname) "." = true.
Proof.
  unfold ensureTrailingDot.
  destruct (GoString.HasSuffix hostname ".") eqn:Hs; [done|].
  apply HasSuffix_true. by exists hostname.
Qed.

(** C4: on the normalized record name, [FindZone] answers with an entry of
    the registry whose suffix matches and is at least as long as every other
    matching suffix, and with the empty zone identifier when no suffix of
    the registry matches. *)
Theorem FindZone_longest_suffix `{MapRange}
    (z : gmap string string) (name : string) :
  let hostname := ensureTrailingDot name in
  let found := zoneIDName.FindZone z hostname in
  GoString.HasSuffix hostname "." = true
  ∧ ((∀ zoneID zoneName, z !! zoneID = Some zoneName →
        GoString.HasSuffix hostname zoneName = false) →
     found = (""%string, ""%string))
  ∧ (∀ zoneID zoneName, z !! zoneID = Some zoneName →
       GoString.HasSuffix hostname zoneName = true →
       z !! found.1 = Some found.2
       ∧ GoString.HasSuffix hostname found.2 = true
       ∧ ∀ zoneID' zoneName', z !! zoneID' = Some zoneName' →
           GoString.HasSuffix hostname zoneName' = true →
           (String.length zoneName' ≤ String.length found.2)%nat).
Proof.
  intros hostname found. split_and!.
  - apply ensureTrailingDot_HasSuffix.
  - apply FindZone_none.
  - apply FindZone_some.
Qed.

(** ** Assignment of changes to zones *)

Section changesByZone_facts.
Context `{MapRange}.

(** After the first loop every bucket is empty and every entry of the
    registry comes from one of the visited zones. *)
Lemma changesByZone_register_fold (entries : list (string * HostedZone)) :
  let init := foldl changesByZone_register (∅, ∅) entries in
  (∀ k v, init.2 !! k = Some v → v = [])
  ∧ (∀ i n, init.1 !! i = Some n →
       ∃ e, e ∈ entries ∧ i = StringValue (zone_Id e.2)
            ∧ n = StringValue (zone_Name e.2))
  ∧ (∀ k, is_Some (init.2 !! k) →
       ∃ e, e ∈ entries ∧ k = StringValue (zone_Id e.2)).
Proof.
  induction entries as [|e entries IH] using rev_ind; simpl.
  { split_and!; intros *; rewrite lookup_empty; [done..|by intros [??]]. }
  rewrite foldl_snoc. destruct IH as (IH1 & IH2 & IH3).
  unfold changesByZone_register at 1 3 5, zoneIDName.Add. simpl.
  split_and!.
  - intros k v. rewrite lookup_insert. case_decide; [congruence|eauto].
  - intros i n. rewrite lookup_insert. case_decide.
    + intros ?. simplify_eq. exists e. set_solver.
    + intros (e' & ? & ?)%IH2. exists e'. set_solver.
  - intros k. rewrite lookup_insert. case_decide.
    + intros _. exists e. set_solver.
    + intros (e' & ? & ?)%IH3. exists e'. set_solver.
Qed.

(** The second loop appends to the bucket of [k] the changes whose zone
    is [k], in their order in the change set. *)
Lemma changesByZone_assign_fold mapper (changeSet : list Change)
    (changes : gmap string (list Change)) (k : string) :
  foldl (changesByZone_assign mapper) changes changeSet !!! k =
    changes !!! k
    ++ filter (λ c, zoneOf mapper c = k ∧ k ≠ ""%string) changeSet.
Proof.
  revert changes. induction changeSet as [|c cs IH]; intros changes; simpl.
  { by rewrite app_nil_r. }
  rewrite IH. unfold changesByZone_assign. fold (zoneOf mapper c).
  rewrite filter_cons.
  destruct (String.eqb (zoneOf mapper c) "") eqn:Hz.
  - apply String.eqb_eq in Hz. rewrite decide_False; [done|].
    intros [Hk Hne]. congruence.
  - apply String.eqb_neq in Hz. destruct (decide (zoneOf mapper c = k)) as [<-|Hne].
    + rewrite lookup_total_insert_eq, decide_True by done.
      by rewrite <-app_assoc.
    + rewrite lookup_total_insert_ne by done.
      rewrite decide_False; [done|]. by intros [? _].
Qed.

Lemma changesByZone_assign_dom mapper (changeSet : list Change)
    (changes : gmap string (list Change)) (k : string) :
  is_Some (foldl (changesByZone_assign mapper) changes changeSet !! k) →
  is_Some (changes !! k)
  ∨ ∃ c, c ∈ changeSet ∧ zoneOf mapper c = k ∧ k ≠ ""%string.
Proof.
  revert changes. induction changeSet as [|c cs IH]; intros changes; simpl.
  { by left. }
  intros [Hk|(c' & ? & ?)]%IH; [|right; exists c'; set_solver].
  unfold changesByZone_assign in Hk. fold (zoneOf mapper c) in Hk.
  destruct (String.eqb (zoneOf mapper c) "") eqn:Hz; [by left|].
  apply String.eqb_neq in Hz. rewrite lookup_insert in Hk.
  case_decide; [|by left]. right. exists c. set_solver.
Qed.

(** The third loop removes exactly the keys with an empty bucket among the
    visited entries. *)
Lemma changesByZone_prune_fold (entries : list (string * list Change))
    (changes : gmap string (list Change)) (k : string) :
  foldl changesByZone_prune changes entries !! k =
    if decide ((k, []) ∈ entries) then None else changes !! k.
Proof.
  revert changes. induction entries as [|[k' v] entries IH];
    intros changes; simpl.
  { done. }
  rewrite IH. unfold changesByZone_prune, GoInt.len. simpl.
  destruct v as [|c v]; simpl.
  - destruct (decide (k = k')) as [->|Hne].
    + rewrite lookup_delete_eq. rewrite (decide_True (P := _ ∈ _ :: _)) by left.
      by case_decide.
    + rewrite lookup_delete_ne by done.
      apply decide_ext. set_solver.
  - apply decide_ext. set_solver.
Qed.

Lemma changesByZone_prune_range (changes : gmap string (list Change))
    (k : string) (l : list Change) :
  foldl changesByZone_prune changes (range changes) !! k = Some l
  ↔ changes !! k = Some l ∧ l ≠ [].
Proof.
  rewrite changesByZone_prune_fold. case_decide as Hin.
  - rewrite range_perm, elem_of_map_to_list in Hin.
    split; [done|]. intros [? ?]. congruence.
  - rewrite range_perm, elem_of_map_to_list in Hin.
    split; [|by intros [? _]]. intros Hl. split; [done|]. by intros ->.
Qed.

(** The buckets of the result, in closed form. *)
Lemma changesByZone_lookup zones changeSet (k : string) (l : list Change) :
  changesByZone zones changeSet !! k = Some l →
  l = filter (λ c, zoneOf (registryOf zones) c = k ∧ k ≠ ""%string) changeSet
  ∧ l ≠ [].
Proof.
  unfold changesByZone. intros [Hl Hne]%changesByZone_prune_range.
  split; [|done]. apply lookup_total_correct in Hl as Hlt.
  rewrite changesByZone_assign_fold in Hlt. rewrite <-Hlt.
  fold (registryOf zones).
  destruct (changesByZone_register_fold (range zones)) as (Hempty & _).
  destruct ((foldl changesByZone_register (∅, ∅) (range zones)).2 !! k)
    as [v|] eqn:Hk.
  - rewrite (lookup_total_correct _ _ _ Hk), (Hempty k v Hk). done.
  - by rewrite lookup_total_alt, Hk.
Qed.

(** Every key of the result is the identifier of one of the zones. *)
Lemma changesByZone_keys zones changeSet (k : string) :
  is_Some (changesByZone zones changeSet !! k) →
  ∃ key zone, zones !! key = Some zone ∧ k = StringValue (zone_Id zone).
Proof.
  intros [l [Hl _]%changesByZone_prune_range].
  destruct (changesByZone_register_fold (range zones)) as (_ & Hreg & Hdom).
  assert (∀ e, e ∈ range zones → zones !! e.1 = Some e.2) as Hrange.
  { intros [key zone]. rewrite range_perm. apply elem_of_map_to_list. }
  destruct (changesByZone_assign_dom _ _ _ _ (mk_is_Some _ _ Hl))
    as [Hk|(c & _ & Hz & Hne)].
  - apply Hdom in Hk as ([key zone] & Hin & ->).
    exists key, zone. split; [by apply (Hrange (key, zone))|done].
  - unfold zoneOf in Hz.
    destruct (FindZone_lookup
      (foldl changesByZone_register (∅, ∅) (range zones)).1
      (ensureTrailingDot (Name c))) as [Hnone|Hsome].
    + rewrite Hnone in Hz. simpl in Hz. congruence.
    + apply Hreg in Hsome as ([key zone] & Hin & Hid & _).
      exists key, zone. split; [by apply (Hrange (key, zone))|].
      by rewrite <-Hz.
Qed.

Lemma registryOf_lookup zones (i n : string) :
  registryOf zones !! i = Some n →
  ∃ key zone, zones !! key = Some zone
    ∧ i = StringValue (zone_Id zone) ∧ n = StringValue (zone_Name zone).
Proof.
  unfold registryOf. intros Hl.
  destruct (changesByZone_register_fold (range zones)) as (_ & Hreg & _).
  apply Hreg in Hl as ([key zone] & Hin & ? & ?).
  exists key, zone. split; [|done].
  rewrite range_perm in Hin. by apply elem_of_map_to_list in Hin.
Qed.
End changesByZone_facts.

(** C7: in the result of [changesByZone] a change lies in the bucket of at
    most one zone, every bucket is a sublist of the change set (nothing is
    duplicated or altered), a change whose normalized name ends in the name
    of none of the zones lies in no bucket, and no bucket is empty. *)
Theorem changesByZone_partition `{MapRange}
    (zones : gmap string HostedZone) (changeSet : list Change) :
  let result := changesByZone zones changeSet in
  (∀ z1 z2 l1 l2 c,
     result !! z1 = Some l1 → result !! z2 = Some l2 →
     c ∈ l1 → c ∈ l2 → z1 = z2)
  ∧ (∀ z l, result !! z = Some l → l `sublist_of` changeSet)
  ∧ (∀ c,
       (∀ key zone, zones !! key = Some zone →
          GoString.HasSuffix (ensureTrailingDot (Name c))
            (StringValue (zone_Name zone)) = false) →
       ∀ z l, result !! z = Some l → c ∉ l)
  ∧ (∀ z l, result !! z = Some l → l ≠ []).
Proof.
  intros result. split_and!.
  - intros z1 z2 l1 l2 c [-> _]%changesByZone_lookup [-> _]%changesByZone_lookup.
    rewrite !list_elem_of_filter. intros [[<- _] _] [[<- _] _]. done.
  - intros z l [-> _]%changesByZone_lookup. apply sublist_filter.
  - intros c Hnone z l [-> _]%changesByZone_lookup.
    rewrite list_elem_of_filter. intros [[Hz Hne] _].
    unfold zoneOf in Hz. rewrite FindZone_none in Hz; [done|].
    intros i n (key & zone & Hl & _ & ->)%registryOf_lookup. eauto.
  - by intros z l [_ ?]%changesByZone_lookup.
Qed.

(** ** Sorting *)

Section sort_facts.
Context {A : Type} (less : A → A → bool).

Local Abbreviation not_after := (not_after less).

Hypothesis less_asym : ∀ a b, less a b = true → less b a = false.

Lemma insert_sorted_perm x l : insert_sorted less x l ≡ₚ x :: l.
Proof.
  induction l as [|y l IH]; simpl; [done|].
  destruct (less y x); [|done]. rewrite IH. apply Permutation_swap.
Qed.

Lemma sort_stable_perm l : sort_stable less l ≡ₚ l.
Proof.
  induction l as [|x l IH]; simpl; [done|].
  by rewrite insert_sorted_perm, IH.
Qed.

Lemma length_sort_stable l : length (sort_stable less l) = length l.
Proof. apply Permutation_length, sort_stable_perm. Qed.

Lemma insert_sorted_HdRel a x l :
  not_after a x → HdRel not_after a l → HdRel not_after a (insert_sorted less x l).
Proof.
  intros Hax Hal. destruct l as [|y l]; simpl; [by constructor|].
  destruct (less y x); constructor; [|done]. by inversion Hal.
Qed.

Lemma insert_sorted_Sorted x l :
  Sorted not_after l → Sorted not_after (insert_sorted less x l).
Proof.
  induction 1 as [|y l Hl IH Hhd]; simpl; [by repeat constructor|].
  destruct (less y x) eqn:Hyx.
  - constructor; [done|]. apply insert_sorted_HdRel; [|done].
    by apply less_asym.
  - constructor; [by constructor|]. by constructor.
Qed.

Lemma sort_stable_Sorted l : Sorted not_after (sort_stable less l).
Proof.
  induction l as [|x l IH]; simpl; [constructor|].
  by apply insert_sorted_Sorted.
Qed.

(** The sort is stable: within a class of elements none of which is less
    than another, the order of the input is kept. *)
Lemma insert_sorted_filter (P : A → Prop) `{!∀ x, Decision (P x)} x l :
  (∀ a b, P a → P b → less a b = false) →
  filter P (insert_sorted less x l) = filter P (x :: l).
Proof.
  intros Hclass. induction l as [|y l IH]; simpl; [done|].
  destruct (less y x) eqn:Hyx; [|done].
  rewrite (filter_cons _ y), IH, !filter_cons.
  destruct (decide (P y)) as [Hy|Hy], (decide (P x)) as [Hx|Hx]; try done.
  rewrite (Hclass y x Hy Hx) in Hyx. done.
Qed.

Lemma sort_stable_filter (P : A → Prop) `{!∀ x, Decision (P x)} l :
  (∀ a b, P a → P b → less a b = false) →
  filter P (sort_stable less l) = filter P l.
Proof.
  intros Hclass. induction l as [|x l IH]; simpl; [done|].
  rewrite insert_sorted_filter by done. by rewrite !filter_cons, IH.
Qed.

Hypothesis not_after_trans : ∀ a b c,
  not_after a b → not_after b c → not_after a c.

(** Two permuted slices sort to the same slice when elements that compare
    equal are equal. *)
Lemma sort_stable_unique l1 l2 :
  l1 ≡ₚ l2 →
  (∀ a b, a ∈ l1 → b ∈ l1 → less a b = false → less b a = false → a = b) →
  sort_stable less l1 = sort_stable less l2.
Proof.
  intros Hperm Hties.
  apply (StronglySorted_unique_strong not_after).
  - intros a b Ha Hb Hab Hba. apply Hties; [| |done..].
    + by rewrite sort_stable_perm in Ha.
    + by rewrite sort_stable_perm, <-Hperm in Hb.
  - apply (@Sorted_StronglySorted _ not_after not_after_trans).
    apply sort_stable_Sorted.
  - apply (@Sorted_StronglySorted _ not_after not_after_trans).
    apply sort_stable_Sorted.
  - by rewrite !sort_stable_perm.
Qed.
End sort_facts.

(** ** The order of strings *)

Section string_order.
Implicit Types a b c : string.

Lemma lt_false_leb a b : GoString.lt b a = false ↔ String.leb a b = true.
Proof.
  unfold GoString.lt, String.ltb, String.leb.
  rewrite (String.compare_antisym b a).
  by destruct (String.compare a b).
Qed.

Lemma lt_asym a b : GoString.lt a b = true → GoString.lt b a = false.
Proof.
  unfold GoString.lt, String.ltb. rewrite (String.compare_antisym b a).
  by destruct (String.compare a b).
Qed.

Lemma lt_irrefl a : GoString.lt a a = false.
Proof. destruct (GoString.lt a a) eqn:Hlt; [|done]. by rewrite <-Hlt, lt_asym. Qed.

Lemma lt_total a b :
  GoString.lt a b = false → GoString.lt b a = false → a = b.
Proof. rewrite !lt_false_leb. intros. by apply String.leb_antisym. Qed.

Lemma not_after_string_trans a b c :
  not_after GoString.lt a b → not_after GoString.lt b c →
  not_after GoString.lt a c.
Proof.
  unfold not_after. rewrite !lt_false_leb. intros Hab Hbc.
  apply Is_true_true. apply Is_true_true in Hab, Hbc.
  by apply (transitivity (R := String.le) Hab Hbc).
Qed.

Lemma lt_trans a b c :
  GoString.lt a b = true → GoString.lt b c = true → GoString.lt a c = true.
Proof.
  intros Hab Hbc. destruct (GoString.lt a c) eqn:Hac; [done|].
  assert (GoString.lt c b = false) as Hcb by by apply lt_asym.
  assert (GoString.lt b a = false) as Hba by by apply lt_asym.
  pose proof (not_after_string_trans c a b Hac Hba) as Hbc'.
  unfold not_after in Hbc'. congruence.
Qed.

Lemma lt_le_trans a b c :
  GoString.lt a b = true → GoString.lt c b = false → GoString.lt a c = true.
Proof.
  intros Hab Hcb. destruct (GoString.lt a c) eqn:Hac; [done|].
  pose proof (not_after_string_trans b c a Hcb Hac) as Hba.
  unfold not_after in Hba. congruence.
Qed.

Lemma le_lt_trans a b c :
  GoString.lt b a = false → GoString.lt b c = true → GoString.lt a c = true.
Proof.
  intros Hba Hbc. destruct (GoString.lt a c) eqn:Hac; [done|].
  pose proof (not_after_string_trans c a b Hac Hba) as Hcb.
  unfold not_after in Hcb. congruence.
Qed.

Lemma lt_eq_absurd a b : GoString.lt a b = true → a = b → False.
Proof. intros Hlt ->. by rewrite lt_irrefl in Hlt. Qed.

Lemma lt_lt_absurd a b :
  GoString.lt a b = true → GoString.lt b a = true → False.
Proof. intros Hab%lt_asym Hba. congruence. Qed.

Lemma sort_Strings_perm (l : list string) : sort_Strings l ≡ₚ l.
Proof. apply sort_stable_perm. Qed.

Lemma sort_Strings_Sorted (l : list string) :
  Sorted (not_after GoString.lt) (sort_Strings l).
Proof. apply sort_stable_Sorted, lt_asym. Qed.

(** The sorted slice depends on the elements only, not on their order. *)
Lemma sort_Strings_unique (l1 l2 : list string) :
  l1 ≡ₚ l2 → sort_Strings l1 = sort_Strings l2.
Proof.
  intros Hperm. apply sort_stable_unique; [apply lt_asym| |done|].
  - apply not_after_string_trans.
  - intros a b _ _. apply lt_total.
Qed.
End string_order.

(** ** The order of changes *)

Ltac string_order_contradiction :=
  exfalso;
  match goal with
  | H : GoString.lt ?x ?y = true, E : ?x = ?y |- _ =>
      exact (lt_eq_absurd x y H E)
  | H : GoString.lt ?x ?y = true, E : ?y = ?x |- _ =>
      exact (lt_eq_absurd x y H (eq_sym E))
  | H : GoString.lt ?x ?y = true, H' : GoString.lt ?y ?x = true |- _ =>
      exact (lt_lt_absurd x y H H')
  end.

Section change_order.
Implicit Types a b c : Change.

(** The comparison of [sortChangesByActionNameType] is the lexicographic
    order on action, name and type. *)
Lemma not_after_ActionNameType a b :
  not_after less_ActionNameType a b ↔
    GoString.lt (Action a) (Action b) = true
    ∨ (Action a = Action b
       ∧ (GoString.lt (Name a) (Name b) = true
          ∨ (Name a = Name b
             ∧ GoString.lt (Type_ b) (Type_ a) = false))).
Proof.
  unfold not_after, less_ActionNameType.
  destruct (GoString.lt (Action b) (Action a)) eqn:HA1.
  { split; [done|]. intros [HA2|[Heq _]].
    - apply lt_asym in HA2. congruence.
    - rewrite Heq, lt_irrefl in HA1. done. }
  destruct (GoString.lt (Action a) (Action b)) eqn:HA2; [by split; auto|].
  pose proof (lt_total _ _ HA1 HA2) as HA.
  destruct (GoString.lt (Name b) (Name a)) eqn:HN1.
  { split; [done|]. intros [?|[_ [HN2|[Heq _]]]]; [done| |].
    - apply lt_asym in HN2. congruence.
    - rewrite Heq, lt_irrefl in HN1. done. }
  destruct (GoString.lt (Name a) (Name b)) eqn:HN2; [by split; auto|].
  pose proof (lt_total _ _ HN1 HN2) as HN.
  split; [by auto|]. intros [?|[_ [?|[_ ?]]]]; done.
Qed.

Lemma less_ActionNameType_asym a b :
  less_ActionNameType a b = true → less_ActionNameType b a = false.
Proof.
  intros Hab. apply not_after_ActionNameType.
  unfold less_ActionNameType in Hab.
  destruct (GoString.lt (Action a) (Action b)) eqn:HA1; [by left|].
  destruct (GoString.lt (Action b) (Action a)) eqn:HA2; [done|].
  right. split; [by apply lt_total|].
  destruct (GoString.lt (Name a) (Name b)) eqn:HN1; [by left|].
  destruct (GoString.lt (Name b) (Name a)) eqn:HN2; [done|].
  right. split; [by apply lt_total|]. by apply lt_asym.
Qed.

Lemma not_after_ActionNameType_trans a b c :
  not_after less_ActionNameType a b → not_after less_ActionNameType b c →
  not_after less_ActionNameType a c.
Proof.
  rewrite !not_after_ActionNameType.
  intros [HA|[HA [HN|[HN HT]]]] [HA'|[HA' [HN'|[HN' HT']]]];
    try (left; first [by eapply lt_trans|congruence]);
    right; (split; [congruence|]).
  - left. by eapply lt_trans.
  - left. congruence.
  - left. congruence.
  - right. split; [congruence|].
    by apply (not_after_string_trans (Type_ a) (Type_ b) (Type_ c)).
Qed.

(** Changes that compare equal agree on action, name and type. *)
Lemma less_ActionNameType_tie a b :
  less_ActionNameType a b = false → less_ActionNameType b a = false →
  Action a = Action b ∧ Name a = Name b ∧ Type_ a = Type_ b.
Proof.
  intros Hab Hba.
  apply (not_after_ActionNameType b a) in Hab.
  apply (not_after_ActionNameType a b) in Hba.
  destruct Hab as [HA|[HA [HN|[HN HT]]]], Hba as [HA'|[HA' [HN'|[HN' HT']]]];
    try by string_order_contradiction.
  split_and!; [done..|]. by apply lt_total.
Qed.

Lemma sortChangesByActionNameType_perm (cs : list Change) :
  sortChangesByActionNameType cs ≡ₚ cs.
Proof. apply sort_stable_perm. Qed.

Lemma sortChangesByActionNameType_Sorted (cs : list Change) :
  Sorted (not_after less_ActionNameType) (sortChangesByActionNameType cs).
Proof. apply sort_stable_Sorted, less_ActionNameType_asym. Qed.

(** Changes with the same action, name and type keep their input order. *)
Lemma sortChangesByActionNameType_stable (cs : list Change)
    (action name type : string) :
  filter (λ c, Action c = action ∧ Name c = name ∧ Type_ c = type)
    (sortChangesByActionNameType cs)
  = filter (λ c, Action c = action ∧ Name c = name ∧ Type_ c = type) cs.
Proof.
  apply sort_stable_filter. intros a b (HA & HN & HT) (HA' & HN' & HT').
  unfold less_ActionNameType.
  rewrite HA, HA', HN, HN', HT, HT'. by rewrite !lt_irrefl.
Qed.

Lemma sortChangesByActionNameType_unique (cs1 cs2 : list Change) :
  cs1 ≡ₚ cs2 →
  (∀ a b, a ∈ cs1 → b ∈ cs1 →
     Action a = Action b → Name a = Name b → Type_ a = Type_ b → a = b) →
  sortChangesByActionNameType cs1 = sortChangesByActionNameType cs2.
Proof.
  intros Hperm Hinj. apply sort_stable_unique; [| |done|].
  - apply less_ActionNameType_asym.
  - apply not_after_ActionNameType_trans.
  - intros a b Ha Hb Hab Hba.
    destruct (less_ActionNameType_tie a b Hab Hba) as (? & ? & ?).
    by apply Hinj.
Qed.
End change_order.

(** ** Batch limiter *)

Lemma wrap_in_range z : GoInt.in_range z → GoInt.wrap z = z.
Proof.
  unfold GoInt.in_range, GoInt.min_int, GoInt.max_int, GoInt.wrap.
  intros Hz. rewrite Z.mod_small; lia.
Qed.

Section limitChangeSet_facts.
Context `{MapRange}.

(** Grouping by name: the bucket of a name holds the changes with that
    name in their order in the slice. *)
Lemma limitChangeSet_group_fold (cs : list Change)
    (m : gmap string (list Change)) (name : string) :
  foldl limitChangeSet_group m cs !!! name = m !!! name ++ group cs name.
Proof.
  revert m. induction cs as [|c cs IH]; intros m; simpl.
  { unfold group. by rewrite app_nil_r. }
  rewrite IH. unfold limitChangeSet_group, group. rewrite filter_cons.
  destruct (decide (Name c = name)) as [<-|Hne].
  - by rewrite lookup_total_insert_eq, <-app_assoc.
  - by rewrite lookup_total_insert_ne.
Qed.

Lemma limitChangeSet_group_dom (cs : list Change)
    (m : gmap string (list Change)) (name : string) :
  is_Some (foldl limitChangeSet_group m cs !! name)
  ↔ is_Some (m !! name) ∨ ∃ c, c ∈ cs ∧ Name c = name.
Proof.
  revert m. induction cs as [|c cs IH]; intros m; simpl.
  { split; [by left|]. intros [?|(c & Hc & _)]; [done|].
    by apply elem_of_nil in Hc. }
  rewrite IH. unfold limitChangeSet_group. rewrite lookup_insert_is_Some.
  split.
  - intros [[Heq|[_ Hm]]|(c' & Hc' & Hn)].
    + right. exists c. split; [left|done].
    + by left.
    + right. exists c'. split; [by right|done].
  - intros [Hm|(c' & Hc' & Hn)].
    + left. destruct (decide (Name c = name)); [by left|by right].
    + apply elem_of_cons in Hc' as [->|Hc']; [by left; left|].
      right. by exists c'.
Qed.

(** The names the limiter walks: the distinct names of the slice. *)
Lemma limitChangeSet_names (cs : list Change) :
  let names :=
    sort_Strings ((range (foldl limitChangeSet_group ∅ cs)).*1) in
  NoDup names ∧ ∀ name, name ∈ names ↔ ∃ c, c ∈ cs ∧ Name c = name.
Proof.
  intros names. unfold names. split.
  - rewrite sort_Strings_perm, range_perm. apply NoDup_fst_map_to_list.
  - intros name. rewrite sort_Strings_perm, range_perm.
    rewrite list_elem_of_fmap. split.
    + intros ([n l] & -> & Hin). apply elem_of_map_to_list in Hin.
      apply (mk_is_Some _ l), limitChangeSet_group_dom in Hin
        as [Hin|?]; [|done]. rewrite lookup_empty in Hin. by destruct Hin.
    + intros Hc.
      assert (is_Some (foldl limitChangeSet_group ∅ cs !! name)) as [l Hl].
      { apply limitChangeSet_group_dom. by right. }
      exists (name, l). split; [done|]. by apply elem_of_map_to_list.
Qed.

(** The selection loop of the code is the walk of the specification. *)
Lemma limitChangeSet_select_fold limit (cs : list Change)
    (changesByName : gmap string (list Change)) names limCs :
  GoInt.in_range limit →
  (∀ name, changesByName !!! name = group cs name) →
  limCs = [] ∨ Z.of_nat (length limCs) ≤ limit →
  foldl (limitChangeSet_select limit changesByName) limCs names
  = greedy_walk limit cs names limCs.
Proof.
  intros Hlimit Hgroups. revert limCs.
  induction names as [|name names IH]; intros limCs Hinv; simpl; [done|].
  unfold limitChangeSet_select at 2. rewrite Hgroups.
  unfold GoInt.sub, GoInt.len. rewrite wrap_in_range; last first.
  { unfold GoInt.in_range, GoInt.min_int, GoInt.max_int in *.
    destruct Hinv as [->|Hle]; simpl; lia. }
  destruct (Z.leb_spec (Z.of_nat (length (group cs name)))
              (limit - Z.of_nat (length limCs))) as [Hfit|Hnofit].
  - rewrite decide_True by done. apply IH. right.
    rewrite length_app. lia.
  - rewrite decide_False by lia. by apply IH.
Qed.

(** The limiter in closed form when the slice exceeds the limit. *)
Lemma limitChangeSet_unfold (cs : list Change) limit :
  GoInt.in_range limit → limit < GoInt.len cs →
  limitChangeSet cs limit =
    sortChangesByActionNameType
      (greedy_walk limit cs
         (sort_Strings ((range (foldl limitChangeSet_group ∅ cs)).*1)) []).
Proof.
  intros Hlimit Hlen. unfold limitChangeSet.
  destruct (Z.leb_spec (GoInt.len cs) limit); [lia|].
  f_equal. apply limitChangeSet_select_fold; [done| |by left].
  intros name. by rewrite limitChangeSet_group_fold, lookup_total_empty.
Qed.
End limitChangeSet_facts.

Section greedy_walk_facts.
Variables (limit : Z) (cs : list Change).

Lemma greedy_walk_length names selected :
  Z.of_nat (length selected) ≤ limit →
  Z.of_nat (length (greedy_walk limit cs names selected)) ≤ limit.
Proof.
  revert selected. induction names as [|name names IH];
    intros selected Hsel; simpl; [done|].
  case_decide; apply IH; [|done]. rewrite length_app. lia.
Qed.

Lemma greedy_walk_elem_of names selected c :
  c ∈ greedy_walk limit cs names selected → c ∈ selected ∨ c ∈ cs.
Proof.
  revert selected. induction names as [|name names IH];
    intros selected; simpl; [by left|].
  case_decide; intros [Hc|?]%IH; auto.
  apply elem_of_app in Hc as [?|Hc]; [by left|].
  right. unfold group in Hc. by apply list_elem_of_filter in Hc as [_ ?].
Qed.

Lemma group_group name name' :
  group (group cs name') name = if decide (name = name') then group cs name else [].
Proof.
  unfold group. rewrite list_filter_filter. case_decide as Heq.
  - subst. apply list_filter_iff. naive_solver.
  - induction cs as [|c l IH]; [done|]. rewrite filter_cons.
    rewrite decide_False by naive_solver. done.
Qed.

(** No group is split: along the walk the selected changes of a name are
    none, or all of them once the name has been passed. *)
Lemma greedy_walk_groups names selected :
  NoDup names →
  (∀ name, group selected name = []
           ∨ (group selected name = group cs name ∧ name ∉ names)) →
  ∀ name, group (greedy_walk limit cs names selected) name = []
          ∨ group (greedy_walk limit cs names selected) name = group cs name.
Proof.
  revert selected. induction names as [|n names IH];
    intros selected Hnd Hinv; simpl.
  { intros name. destruct (Hinv name) as [?|[? _]]; auto. }
  apply NoDup_cons in Hnd as [Hn Hnd].
  case_decide; apply IH; try done.
  - intros name. unfold group at 1 3. rewrite filter_app.
    fold (group selected name) (group (group cs n) name).
    rewrite group_group. case_decide as Heq.
    + subst n. right. split; [|done].
      destruct (Hinv name) as [->|[_ Hnot]]; [done|]. set_solver.
    + rewrite app_nil_r. destruct (Hinv name) as [?|[? Hnot]]; [by left|].
      right. split; [done|]. set_solver.
  - intros name. destruct (Hinv name) as [?|[? Hnot]]; [by left|].
    right. split; [done|]. set_solver.
Qed.

(** Permuted slices select permuted batches. *)
Lemma greedy_walk_perm (cs' : list Change) names selected selected' :
  cs ≡ₚ cs' → selected ≡ₚ selected' →
  greedy_walk limit cs names selected ≡ₚ greedy_walk limit cs' names selected'.
Proof.
  intros Hcs. revert selected selected'.
  induction names as [|n names IH]; intros selected selected' Hsel; simpl;
    [done|].
  assert (group cs n ≡ₚ group cs' n) as Hg by (unfold group; by rewrite Hcs).
  rewrite <-(Permutation_length Hg), <-(Permutation_length Hsel).
  case_decide; apply IH; [|done]. by rewrite Hg, Hsel.
Qed.
End greedy_walk_facts.

Lemma StronglySorted_NoDup_strict (names : list string) :
  StronglySorted (λ a b, GoString.lt a b = true) names → NoDup names.
Proof.
  induction 1 as [|a l Hl IH Hall]; [constructor|].
  apply NoDup_cons. split; [|done]. intros Ha.
  rewrite Forall_forall in Hall. specialize (Hall a Ha).
  by rewrite lt_irrefl in Hall.
Qed.

Lemma Sorted_NoDup_strict (names : list string) :
  Sorted (not_after GoString.lt) names → NoDup names →
  StronglySorted (λ a b, GoString.lt a b = true) names.
Proof.
  intros Hs%(@Sorted_StronglySorted _ _ not_after_string_trans) Hnd.
  induction Hs as [|a l Hl IH Hall]; [constructor|].
  apply NoDup_cons in Hnd as [Ha Hnd]. constructor; [by apply IH|].
  rewrite Forall_forall in Hall |- *. intros b Hb.
  destruct (GoString.lt a b) eqn:Hab; [done|]. exfalso.
  apply Ha. rewrite (lt_total a b Hab (Hall b Hb)). done.
Qed.

(** The selection loop takes a group whole or not at all, whatever its
    test decides: along the loop the selected changes of a name are none,
    or all of them once the name has been passed. *)
Lemma limitChangeSet_select_groups `{MapRange} limit (cs : list Change)
    (changesByName : gmap string (list Change)) names limCs :
  (∀ name, changesByName !!! name = group cs name) →
  NoDup names →
  (∀ name, group limCs name = []
           ∨ (group limCs name = group cs name ∧ name ∉ names)) →
  ∀ name,
    group (foldl (limitChangeSet_select limit changesByName) limCs names) name
      = []
    ∨ group (foldl (limitChangeSet_select limit changesByName) limCs names) name
      = group cs name.
Proof.
  intros Hgroups. revert limCs.
  induction names as [|n names IH]; intros limCs Hnd Hinv; simpl.
  { intros name. destruct (Hinv name) as [?|[? _]]; auto. }
  apply NoDup_cons in Hnd as [Hn Hnd]. apply IH; [done|].
  unfold limitChangeSet_select. rewrite Hgroups.
  destruct (_ <=? _).
  - intros name. unfold group at 1 3. rewrite filter_app.
    fold (group limCs name) (group (group cs n) name).
    rewrite group_group. case_decide as Heq.
    + subst n. right. split; [|done].
      destruct (Hinv name) as [->|[_ Hnot]]; [done|].
      exfalso. apply Hnot. by left.
    + rewrite app_nil_r. destruct (Hinv name) as [?|[? Hnot]]; [by left|].
      right. split; [done|]. intros Hin. apply Hnot. by right.
  - intros name. destruct (Hinv name) as [?|[? Hnot]]; [by left|].
    right. split; [done|]. intros Hin. apply Hnot. by right.
Qed.

(** C1: for every limit of type int that is not negative, as the limit of a
    batch size is, the returned slice is no longer than the limit; and for
    every limit whatsoever and every record name the returned slice holds
    either all changes of the input with that name or none of them. *)
Theorem limitChangeSet_bounded_whole_groups `{MapRange}
    (cs : list Change) (limit : Z) :
  (GoInt.in_range limit → 0 ≤ limit →
     GoInt.len (limitChangeSet cs limit) ≤ limit)
  ∧ ∀ name, group (limitChangeSet cs limit) name ≡ₚ group cs name
            ∨ group (limitChangeSet cs limit) name = [].
Proof.
  split.
  - intros Hrange Hlimit.
    destruct (Z.leb_spec (GoInt.len cs) limit) as [Hle|Hgt].
    { unfold limitChangeSet. by rewrite (proj2 (Z.leb_le _ _) Hle). }
    rewrite limitChangeSet_unfold by done.
    unfold GoInt.len, sortChangesByActionNameType.
    rewrite length_sort_stable. by apply greedy_walk_length.
  - intros name. unfold limitChangeSet.
    destruct (GoInt.len cs <=? limit); [by left|].
    destruct (limitChangeSet_names cs) as [Hnd _].
    assert (∀ l, group (sortChangesByActionNameType l) name ≡ₚ group l name)
      as Hsort.
    { intros l. unfold group. by rewrite sortChangesByActionNameType_perm. }
    destruct (limitChangeSet_select_groups limit cs
                (foldl limitChangeSet_group ∅ cs) _ []
                (λ n, eq_trans (limitChangeSet_group_fold cs ∅ n)
                        (f_equal (λ l, l ++ group cs n)
                           (lookup_total_empty n)))
                Hnd (λ _, or_introl eq_refl) name) as [Hnone|Hall].
    + right. apply Permutation_nil_r. by rewrite Hsort, Hnone.
    + left. by rewrite Hsort, Hall.
Qed.

(** C8: a slice that is no longer than the limit is returned as it is, in
    particular as a permutation of itself with nothing dropped. *)
Theorem limitChangeSet_within_limit `{MapRange}
    (cs : list Change) (limit : Z) :
  GoInt.len cs ≤ limit →
  limitChangeSet cs limit = cs ∧ limitChangeSet cs limit ≡ₚ cs.
Proof.
  intros Hle. unfold limitChangeSet. by rewrite (proj2 (Z.leb_le _ _) Hle).
Qed.

(** C5: for a slice longer than the limit the limiter walks the distinct
    record names of the slice in strictly ascending order and selects
    exactly the groups that fit into what the limit leaves at their turn,
    going on after a group that does not fit; the selection is then sorted.
    In the sample, the group of three is skipped and the later group of one
    is selected. *)
Theorem limitChangeSet_greedy :
  (∀ (R : MapRange) (cs : list Change) (limit : Z),
     GoInt.in_range limit → limit < GoInt.len cs →
     ∃ names,
       StronglySorted (λ a b, GoString.lt a b = true) names
       ∧ (∀ name, name ∈ names ↔ ∃ c, c ∈ cs ∧ Name c = name)
       ∧ @limitChangeSet R cs limit =
           sortChangesByActionNameType (greedy_walk limit cs names []))
  ∧ (∀ R : MapRange,
       @limitChangeSet R [sample_a1; sample_a2; sample_a3; sample_b1] 2
       = [sample_b1]).
Proof.
  assert (∀ (R : MapRange) (cs : list Change) (limit : Z),
     GoInt.in_range limit → limit < GoInt.len cs →
     ∃ names,
       StronglySorted (λ a b, GoString.lt a b = true) names
       ∧ (∀ name, name ∈ names ↔ ∃ c, c ∈ cs ∧ Name c = name)
       ∧ @limitChangeSet R cs limit =
           sortChangesByActionNameType (greedy_walk limit cs names []))
    as Hgreedy.
  { intros R cs limit Hrange Hlen.
    exists (sort_Strings ((range (foldl limitChangeSet_group ∅ cs)).*1)).
    destruct (limitChangeSet_names cs) as [Hnd Hnames]. split_and!.
    - apply Sorted_NoDup_strict; [apply sort_Strings_Sorted|done].
    - done.
    - by apply limitChangeSet_unfold. }
  split; [done|]. intros R.
  destruct (Hgreedy R [sample_a1; sample_a2; sample_a3; sample_b1] 2)
    as (names & Hsorted & Hnames & ->); [by vm_compute..|].
  assert (names = ["a.example.org."; "b.example.org."]%string) as ->.
  { apply (StronglySorted_unique_strong (λ a b, GoString.lt a b = true));
      [|done| |].
    - intros a b _ _ Hab Hba. by destruct (lt_lt_absurd a b).
    - apply (bool_decide_unpack _). by vm_compute.
    - apply NoDup_Permutation.
      + eapply StronglySorted_NoDup_strict, Hsorted.
      + apply (bool_decide_unpack _). by vm_compute.
      + intros name. rewrite Hnames. split.
        * intros (c & Hc & <-). set_unfold in Hc.
          destruct Hc as [->|[->|[->|[->|[]]]]]; vm_compute; set_solver.
        * intros Hn. set_unfold in Hn. destruct Hn as [->|[->|[]]].
          -- exists sample_a1. split; [set_solver|done].
          -- exists sample_b1. split; [set_solver|done]. }
  by vm_compute.
Qed.

(** C6 as stated fails twice.  A slice within the limit is returned in its
    own order, so a permuted slice yields a permuted result; and beyond the
    limit the stable sort keeps changes that agree on action, name and type
    in the order of the input. *)
Lemma limitChangeSet_depends_on_input_order :
  ([sample_a1; sample_b1] ≡ₚ [sample_b1; sample_a1]
   ∧ @limitChangeSet range_canonical [sample_a1; sample_b1] 2
     ≠ @limitChangeSet range_canonical [sample_b1; sample_a1] 2)
  ∧ ([sample_t1; sample_t2; sample_z1] ≡ₚ [sample_t2; sample_t1; sample_z1]
     ∧ 2 < GoInt.len [sample_t1; sample_t2; sample_z1]
     ∧ @limitChangeSet range_canonical [sample_t1; sample_t2; sample_z1] 2
       ≠ @limitChangeSet range_canonical [sample_t2; sample_t1; sample_z1] 2).
Proof.
  split_and!.
  - apply Permutation_swap.
  - by vm_compute.
  - apply Permutation_swap.
  - by vm_compute.
  - by vm_compute.
Qed.

(** C6, amended: for two slices that are permutations of each other, are
    longer than the limit and hold no two different changes with the same
    action, name and type, the limiter returns the same slice, whatever the
    order in which the runtime visits the map in either call. *)
Theorem limitChangeSet_deterministic (R1 R2 : MapRange)
    (cs1 cs2 : list Change) (limit : Z) :
  GoInt.in_range limit → cs1 ≡ₚ cs2 → limit < GoInt.len cs1 →
  (∀ a b, a ∈ cs1 → b ∈ cs1 →
     Action a = Action b → Name a = Name b → Type_ a = Type_ b → a = b) →
  @limitChangeSet R1 cs1 limit = @limitChangeSet R2 cs2 limit.
Proof.
  intros Hrange Hperm Hlen Hinj.
  assert (limit < GoInt.len cs2) as Hlen2.
  { unfold GoInt.len in *. by rewrite <-(Permutation_length Hperm). }
  rewrite !limitChangeSet_unfold by done.
  destruct (@limitChangeSet_names R1 cs1) as [Hnd1 Hn1].
  destruct (@limitChangeSet_names R2 cs2) as [Hnd2 Hn2].
  assert (sort_Strings ((@range R1 _ (foldl limitChangeSet_group ∅ cs1)).*1)
          = sort_Strings ((@range R2 _ (foldl limitChangeSet_group ∅ cs2)).*1))
    as Hnames.
  { rewrite sort_Strings_perm in Hnd1, Hnd2.
    setoid_rewrite sort_Strings_perm in Hn1.
    setoid_rewrite sort_Strings_perm in Hn2.
    apply sort_Strings_unique, NoDup_Permutation; [done..|].
    intros name. rewrite Hn1, Hn2. by setoid_rewrite Hperm. }
  rewrite Hnames. apply sortChangesByActionNameType_unique.
  - by apply greedy_walk_perm.
  - intros a b Ha Hb. apply Hinj.
    + apply greedy_walk_elem_of in Ha as [Ha|Ha]; [|done].
      by apply elem_of_nil in Ha.
    + apply greedy_walk_elem_of in Hb as [Hb|Hb]; [|done].
      by apply elem_of_nil in Hb.
Qed.

(** ** Submission *)

Section submit_facts.
Context {Service : Type} `{MapRange}.
Implicit Types (p : AWSProvider Service) (w : World Service).

Lemma Zones_visit_keyed p zones zone :
  keyed_by_id zones → keyed_by_id (Zones_visit p zones zone).
Proof.
  intros Hk. unfold Zones_visit.
  destruct (zoneTypeFilter p zone); simpl; [|done].
  destruct (domainFilter p _); simpl; [|done].
  intros key zone'. rewrite lookup_insert. case_decide.
  - intros ?. by simplify_eq.
  - apply Hk.
Qed.

Lemma Zones_keyed p w w' zones :
  Zones p w = (w', inl zones) → keyed_by_id zones.
Proof.
  unfold Zones.
  destruct (ListHostedZonesPages (client p) w.1) as [[service pages] err].
  destruct err; intros ?; simplify_eq.
  assert (∀ zs (l : list HostedZone),
    keyed_by_id zs → keyed_by_id (foldl (Zones_visit p) zs l)) as Hpage.
  { intros zs l. revert zs. induction l as [|zone l IH]; intros zs Hzs;
      simpl; [done|]. by apply IH, Zones_visit_keyed. }
  assert (∀ zs, keyed_by_id zs →
    keyed_by_id (foldl (foldl (Zones_visit p)) zs pages)) as Hpages.
  { induction pages as [|page pages IH]; intros zs Hzs; simpl; [done|].
    by apply IH, Hpage. }
  apply Hpages. intros key zone. by rewrite lookup_empty.
Qed.

Lemma emit_desired_changes w (limCs : list Change) :
  foldl (λ w c, emit (LogInfo_DesiredChange (Action c) (Name c) (Type_ c)) w)
    w limCs
  = (w.1, w.2 ++ desired_changes limCs).
Proof.
  revert w. induction limCs as [|c limCs IH]; intros [service events]; simpl.
  { by rewrite app_nil_r. }
  rewrite IH. unfold emit. simpl. by rewrite <-app_assoc.
Qed.

Lemma calls_of_app l1 l2 : calls_of (l1 ++ l2) = calls_of l1 ++ calls_of l2.
Proof. apply omap_app. Qed.

Lemma errors_of_app l1 l2 :
  errors_of (l1 ++ l2) = errors_of l1 ++ errors_of l2.
Proof. apply omap_app. Qed.

Lemma calls_of_desired_changes limCs : calls_of (desired_changes limCs) = [].
Proof. induction limCs as [|c limCs IH]; [done|]. apply IH. Qed.

(** The loop body in closed form. *)
Lemma submitChanges_zone_unfold p zones z cs w :
  let limCs := limitChangeSet cs maxChangeCount in
  let announced := w.2 ++ desired_changes limCs in
  submitChanges_zone p zones z cs w =
    if dryRun p then ((w.1, announced), false)
    else
      let r := ChangeResourceRecordSets (client p) z limCs w.1 in
      let called := announced ++ [Call_ChangeResourceRecordSets z limCs] in
      match r.2 with
      | Some e => ((r.1, called ++ [LogError e]), false)
      | None =>
          match zones !! z with
          | Some zone =>
              ((r.1, called
                 ++ [LogInfo_RecordsUpdated (StringValue (zone_Name zone))]),
               false)
          | None => ((r.1, called), true)
          end
      end.
Proof.
  intros limCs announced. unfold submitChanges_zone.
  rewrite emit_desired_changes. fold limCs. fold announced.
  destruct (dryRun p); simpl; [done|].
  destruct (ChangeResourceRecordSets (client p) z limCs w.1)
    as [service [e|]]; simpl; [done|].
  by destruct (zones !! z).
Qed.

(** The loop over the zones with changes: when every visited zone is a key
    of the zone map no iteration panics, and outside dry-run mode every
    zone gets its call, whatever the earlier calls returned. *)
Lemma submitChanges_loop_calls p zones entries w :
  (∀ e, e ∈ entries → is_Some (zones !! e.1)) →
  (submitChanges_loop p zones entries w).2 = false
  ∧ calls_of (submitChanges_loop p zones entries w).1.2 =
      calls_of w.2
      ++ (if dryRun p then []
          else map (λ e, (e.1, limitChangeSet e.2 maxChangeCount)) entries).
Proof.
  revert w. induction entries as [|[z cs] entries IH]; intros w Hkeys; simpl.
  { split; [done|]. destruct (dryRun p); by rewrite app_nil_r. }
  destruct (Hkeys (z, cs)) as [zone Hzone]; [left|]. simpl in Hzone.
  assert (∀ e, e ∈ entries → is_Some (zones !! e.1)) as Hkeys'.
  { intros e He. apply Hkeys. by right. }
  rewrite submitChanges_zone_unfold, Hzone.
  destruct (dryRun p) eqn:Hdry.
  - destruct (IH (w.1, w.2 ++ desired_changes (limitChangeSet cs maxChangeCount))
                Hkeys') as [Hp Hc].
    split; [done|]. rewrite Hc. simpl.
    by rewrite calls_of_app, calls_of_desired_changes, !app_nil_r.
  - destruct (ChangeResourceRecordSets (client p) z _ w.1) as [service [e|]];
      simpl.
    + edestruct IH as [Hp Hc]; [done|]. split; [exact Hp|]. rewrite Hc. simpl.
      rewrite !calls_of_app, calls_of_desired_changes. simpl.
      by rewrite !app_nil_r, <-app_assoc.
    + edestruct IH as [Hp Hc]; [done|]. split; [exact Hp|]. rewrite Hc. simpl.
      rewrite !calls_of_app, calls_of_desired_changes. simpl.
      by rewrite !app_nil_r, <-app_assoc.
Qed.

Lemma changesByZone_keys_in_zones zones changes e :
  keyed_by_id zones → e ∈ range (changesByZone zones changes) →
  is_Some (zones !! e.1).
Proof.
  intros Hkeyed Hin. destruct e as [z cs].
  rewrite range_perm in Hin. apply elem_of_map_to_list in Hin.
  destruct (changesByZone_keys zones changes z (mk_is_Some _ _ Hin))
    as (key & zone & Hl & ->).
  simpl. rewrite (Hkeyed key zone Hl). eauto.
Qed.
End submit_facts.


(** * Instances *)

Lemma in_range_2 : GoInt.in_range 2.
Proof. unfold GoInt.in_range, GoInt.min_int, GoInt.max_int. lia. Defined.

(** The example of the specification: the subdomain zone wins. *)
Example FindZone_subdomain :
  @zoneIDName.FindZone range_canonical sample_registry
    (ensureTrailingDot "app.sub.example.com") = ("z2", "sub.example.com.")%string
  ∧ @zoneIDName.FindZone range_reversed sample_registry
      (ensureTrailingDot "app.sub.example.com") = ("z2", "sub.example.com.")%string.
Proof. split; by vm_compute. Qed.

(** Both submissions are rejected, both are attempted and logged, and the
    call returns nil. *)
Example submitChanges_rejected_batches :
  let r := @submitChanges unit range_canonical rejecting_provider
             sample_changes (tt, []) in
  r.2 = Returned None
  ∧ calls_of r.1.2 = [("Z1", [sample_a1; sample_b1]); ("Z2", [sample_c1])]%string
  ∧ errors_of r.1.2 = ["Throttling"; "Throttling"]%string.
Proof. by vm_compute. Qed.

(** A failed listing is returned and nothing is submitted. *)
Example submitChanges_listing_failure :
  let r := @submitChanges unit range_canonical unreachable_provider
             sample_changes (tt, []) in
  r.2 = Returned (Some "RequestError"%string) ∧ r.1.2 = [].
Proof. by vm_compute. Qed.

Lemma limitChangeSet_bounded_whole_groups_witness :
  (GoInt.in_range 2 ∧ 0 ≤ 2)
  ∧ GoInt.len (@limitChangeSet range_canonical
                 [sample_a1; sample_a2; sample_a3; sample_b1] 2) ≤ 2
  ∧ ∀ name,
      group (@limitChangeSet range_canonical
               [sample_a1; sample_a2; sample_a3; sample_b1] 2) name
        ≡ₚ group [sample_a1; sample_a2; sample_a3; sample_b1] name
      ∨ group (@limitChangeSet range_canonical
                 [sample_a1; sample_a2; sample_a3; sample_b1] 2) name = [].
Proof.
  split; [split; [exact in_range_2|lia]|].
  destruct (@limitChangeSet_bounded_whole_groups range_canonical
              [sample_a1; sample_a2; sample_a3; sample_b1] 2)
    as [Hlength Hgroups].
  split; [apply Hlength; [exact in_range_2|lia]|exact Hgroups].
Defined.

Lemma limitChangeSet_within_limit_witness :
  GoInt.len [sample_b1; sample_a1] ≤ 2
  ∧ @limitChangeSet range_canonical [sample_b1; sample_a1] 2
    = [sample_b1; sample_a1]
  ∧ @limitChangeSet range_canonical [sample_b1; sample_a1] 2
    ≡ₚ [sample_b1; sample_a1].
Proof.
  split; [by vm_compute|].
  apply (@limitChangeSet_within_limit range_canonical). by vm_compute.
Defined.

Lemma limitChangeSet_greedy_witness :
  ∃ names,
    StronglySorted (λ a b, GoString.lt a b = true) names
    ∧ (∀ name, name ∈ names ↔
         ∃ c, c ∈ [sample_a1; sample_a2; sample_a3; sample_b1] ∧ Name c = name)
    ∧ @limitChangeSet range_reversed
        [sample_a1; sample_a2; sample_a3; sample_b1] 2 =
        sortChangesByActionNameType
          (greedy_walk 2 [sample_a1; sample_a2; sample_a3; sample_b1] names []).
Proof.
  apply (proj1 limitChangeSet_greedy range_reversed); [exact in_range_2|].
  by vm_compute.
Defined.

Lemma limitChangeSet_deterministic_witness :
  [sample_a1; sample_b1; sample_z1] ≡ₚ [sample_b1; sample_a1; sample_z1]
  ∧ @limitChangeSet range_canonical [sample_a1; sample_b1; sample_z1] 2
    = @limitChangeSet range_reversed [sample_b1; sample_a1; sample_z1] 2.
Proof.
  split; [apply Permutation_swap|].
  apply limitChangeSet_deterministic.
  - exact in_range_2.
  - apply Permutation_swap.
  - by vm_compute.
  - intros a b Ha Hb. set_unfold in Ha. set_unfold in Hb.
    destruct Ha as [->|[->|[->|[]]]], Hb as [->|[->|[->|[]]]];
      intros HA HN HT; first [reflexivity|discriminate HN].
Defined.

Lemma newChange_alias_or_literal_witness :
  @newChange sample_IsConfigured range_canonical ChangeActionCreate
      sample_elb_endpoint =
    {| Action := "CREATE"; Name := "app.example.org"; Type_ := "A";
       TTL := None; ResourceRecords := [];
       AliasTarget_ := Some
         {| alias_DNSName := "lb-1234.eu-west-1.elb.amazonaws.com";
            alias_HostedZoneId := "Z32O12XQLNTSW2";
            alias_EvaluateTargetHealth := true |} |}
  ∧ @newChange sample_IsConfigured range_canonical ChangeActionCreate
      sample_plain_endpoint =
    {| Action := "CREATE"; Name := "www.example.org"; Type_ := "A";
       TTL := Some 300; ResourceRecords := ["1.2.3.4"%string];
       AliasTarget_ := None |}.
Proof.
  split.
  - apply (proj1 (@newChange_alias_or_literal sample_IsConfigured
                    range_canonical ChangeActionCreate sample_elb_endpoint)
             "eu-west-1.elb.amazonaws.com"%string "Z32O12XQLNTSW2"%string);
      reflexivity.
  - apply (proj2 (@newChange_alias_or_literal sample_IsConfigured
                    range_canonical ChangeActionCreate sample_plain_endpoint)).
    left. discriminate.
Defined.

Lemma newChange_alias_ignores_ttl_witness :
  (RecordType sample_elb_endpoint = RecordTypeCNAME
   ∧ canonicalHostedZones !! "eu-west-1.elb.amazonaws.com"%string
     = Some "Z32O12XQLNTSW2"%string
   ∧ GoString.HasSuffix (Target sample_elb_endpoint)
       "eu-west-1.elb.amazonaws.com" = true)
  ∧ TTL (@newChange sample_IsConfigured range_canonical ChangeActionUpsert
           sample_elb_endpoint) = None.
Proof.
  split; [by split_and!|].
  apply (@newChange_alias_ignores_ttl sample_IsConfigured range_canonical
           ChangeActionUpsert sample_elb_endpoint
           "eu-west-1.elb.amazonaws.com"%string "Z32O12XQLNTSW2"%string);
    reflexivity.
Defined.

Lemma canonicalHostedZone_order_independent_witness :
  @canonicalHostedZone range_canonical "lb-1234.eu-west-1.elb.amazonaws.com"
  = @canonicalHostedZone range_reversed "lb-1234.eu-west-1.elb.amazonaws.com".
Proof.
  apply (proj1 (proj2 (proj2 canonicalHostedZone_order_independent))).
Defined.

Lemma FindZone_longest_suffix_witness :
  let hostname := ensureTrailingDot "app.sub.example.com" in
  let found := @zoneIDName.FindZone range_canonical sample_registry hostname in
  sample_registry !! found.1 = Some found.2
  ∧ GoString.HasSuffix hostname found.2 = true
  ∧ ∀ zoneID' zoneName', sample_registry !! zoneID' = Some zoneName' →
      GoString.HasSuffix hostname zoneName' = true →
      (String.length zoneName' ≤ String.length found.2)%nat.
Proof.
  apply (proj2 (proj2 (@FindZone_longest_suffix range_canonical sample_registry
                         "app.sub.example.com")) "z1"%string "example.com."%string);
    reflexivity.
Defined.

Lemma changesByZone_partition_witness :
  @changesByZone range_canonical sample_zones sample_changes !! "Z1"%string
    = Some [sample_a1; sample_b1]
  ∧ sample_outside ∉ [sample_a1; sample_b1]
  ∧ [sample_a1; sample_b1] `sublist_of` sample_changes.
Proof.
  assert (@changesByZone range_canonical sample_zones sample_changes
            !! "Z1"%string = Some [sample_a1; sample_b1]) as Hbucket
    by (by vm_compute).
  split_and!; [exact Hbucket| |].
  - apply (proj1 (proj2 (proj2
      (@changesByZone_partition range_canonical sample_zones sample_changes)))
      sample_outside) with (z := "Z1"%string); [|exact Hbucket].
    intros key zone Hzone.
    destruct (decide (key = "Z1"%string)) as [->|H1].
    { vm_compute in Hzone. injection Hzone as <-. reflexivity. }
    destruct (decide (key = "Z2"%string)) as [->|H2].
    { vm_compute in Hzone. injection Hzone as <-. reflexivity. }
    unfold sample_zones in Hzone.
    rewrite !lookup_insert_ne, lookup_empty in Hzone by done. discriminate.
  - apply (proj1 (proj2
      (@changesByZone_partition range_canonical sample_zones sample_changes))
      "Z1"%string). exact Hbucket.
Defined.


(** * Further properties *)

(** ** Batch limiter *)

Section limiter_more.
Context `{MapRange}.

Lemma filter_split_disjoint {A} (P Q : A → Prop)
    `{!∀ x, Decision (P x)} `{!∀ x, Decision (Q x)} (l : list A) :
  (∀ x, P x → Q x → False) →
  filter (λ x, P x ∨ Q x) l ≡ₚ filter P l ++ filter Q l.
Proof.
  intros Hdisj. induction l as [|x l IH]; [done|].
  rewrite !filter_cons.
  destruct (decide (P x)) as [HP|HP], (decide (Q x)) as [HQ|HQ].
  - by destruct (Hdisj x).
  - rewrite decide_True by auto. simpl. by rewrite IH.
  - rewrite decide_True by auto. rewrite IH. apply Permutation_middle.
  - rewrite decide_False by tauto. done.
Qed.

(** The changes whose name is still to be walked, split at the next name. *)
Lemma remaining_split (cs : list Change) (name : string) (names : list string) :
  name ∉ names →
  filter (λ c, Name c ∉ names) cs
  ≡ₚ filter (λ c, Name c ∉ name :: names) cs ++ group cs name.
Proof.
  intros Hname. unfold group.
  rewrite (list_filter_iff _ (λ c, Name c ∉ name :: names ∨ Name c = name)).
  - apply filter_split_disjoint. intros c Hc Heq. apply Hc.
    rewrite Heq. by left.
  - intros c. split.
    + intros Hc. destruct (decide (Name c = name)) as [Heq|Hne]; [by right|].
      left. by intros [?|?]%elem_of_cons.
    + intros [Hc|Hc]; [|by subst]. intros Hin. apply Hc. by right.
Qed.

(** The selection loop only ever appends groups of names it has not yet
    walked, so what it selects is part of the slice. *)
Lemma limitChangeSet_select_submseteq limit (cs : list Change)
    (changesByName : gmap string (list Change)) names limCs :
  (∀ name, changesByName !!! name = group cs name) →
  NoDup names →
  limCs ⊆+ filter (λ c, Name c ∉ names) cs →
  foldl (limitChangeSet_select limit changesByName) limCs names ⊆+ cs.
Proof.
  intros Hgroups. revert limCs.
  induction names as [|name names IH]; intros limCs Hnd Hsel; simpl.
  { etrans; [exact Hsel|]. apply sublist_submseteq, sublist_filter. }
  apply NoDup_cons in Hnd as [Hname Hnd]. apply IH; [done|].
  rewrite (remaining_split cs name names Hname).
  unfold limitChangeSet_select. rewrite Hgroups.
  destruct (_ <=? _).
  - by apply submseteq_app.
  - by apply submseteq_inserts_r.
Qed.

Lemma limitChangeSet_contained (cs : list Change) (limit : Z) :
  limitChangeSet cs limit ⊆+ cs.
Proof.
  unfold limitChangeSet. destruct (_ <=? _); [done|].
  unfold sortChangesByActionNameType. rewrite sort_stable_perm.
  destruct (limitChangeSet_names cs) as [Hnd _].
  apply limitChangeSet_select_submseteq; [|done|apply submseteq_nil_l].
  intros name. by rewrite limitChangeSet_group_fold, lookup_total_empty.
Qed.

(** X1: the limiter never invents a change and never repeats one: what it
    returns is contained in the slice it was given, counting repetitions,
    so every returned change is one of the slice and the result is no longer
    than the slice. *)
Theorem limitChangeSet_submseteq (cs : list Change) (limit : Z) :
  limitChangeSet cs limit ⊆+ cs
  ∧ (∀ c, c ∈ limitChangeSet cs limit → c ∈ cs)
  ∧ (length (limitChangeSet cs limit) ≤ length cs)%nat.
Proof.
  pose proof (limitChangeSet_contained cs limit) as Hsub. split_and!.
  - done.
  - intros c Hc. by eapply elem_of_submseteq.
  - by apply submseteq_length.
Qed.

Lemma greedy_walk_negative limit (cs : list Change) names :
  limit < 0 → greedy_walk limit cs names [] = [].
Proof.
  intros Hneg. induction names as [|name names IH]; simpl; [done|].
  rewrite decide_False; [done|]. simpl. lia.
Qed.

(** A negative limit leaves room for no change at all. *)
Lemma limitChangeSet_negative (cs : list Change) (limit : Z) :
  GoInt.in_range limit → limit < 0 → limitChangeSet cs limit = [].
Proof.
  intros Hrange Hneg. rewrite limitChangeSet_unfold.
  - by rewrite greedy_walk_negative.
  - done.
  - unfold GoInt.len. lia.
Qed.

Lemma limitChangeSet_length (cs : list Change) (limit : Z) :
  GoInt.in_range limit →
  GoInt.len (limitChangeSet cs limit) ≤ limit
  ∨ limitChangeSet cs limit = [] ∧ limit < 0.
Proof.
  intros Hrange.
  destruct (Z.leb_spec (GoInt.len cs) limit) as [Hle|Hgt].
  { left. unfold limitChangeSet. by rewrite (proj2 (Z.leb_le _ _) Hle). }
  rewrite limitChangeSet_unfold by done.
  destruct (Z.ltb_spec limit 0) as [Hneg|Hpos].
  - right. by rewrite greedy_walk_negative.
  - left. unfold GoInt.len, sortChangesByActionNameType.
    rewrite length_sort_stable. by apply greedy_walk_length.
Qed.

(** X2: limiting twice is limiting once. *)
Theorem limitChangeSet_idempotent (cs : list Change) (limit : Z) :
  GoInt.in_range limit →
  limitChangeSet (limitChangeSet cs limit) limit = limitChangeSet cs limit.
Proof.
  intros Hrange.
  destruct (limitChangeSet_length cs limit Hrange) as [Hle|[-> Hneg]].
  - generalize dependent (limitChangeSet cs limit). intros l Hle.
    unfold limitChangeSet. by rewrite (proj2 (Z.leb_le _ _) Hle).
  - rewrite limitChangeSet_unfold by (by unfold GoInt.len; simpl).
    by rewrite greedy_walk_negative.
Qed.

Lemma ActionNameType_le_trans a b c :
  ActionNameType_le a b → ActionNameType_le b c → ActionNameType_le a c.
Proof.
  unfold ActionNameType_le. rewrite <-!not_after_ActionNameType.
  apply not_after_ActionNameType_trans.
Qed.

Lemma sortChangesByActionNameType_StronglySorted (cs : list Change) :
  StronglySorted ActionNameType_le (sortChangesByActionNameType cs).
Proof.
  apply (@Sorted_StronglySorted _ ActionNameType_le ActionNameType_le_trans).
  induction (sortChangesByActionNameType_Sorted cs) as [|a l Hl IH Hhd];
    constructor; [done|].
  destruct Hhd; constructor. by apply not_after_ActionNameType.
Qed.

(** X3: a slice that exceeds the limit comes back in ascending order of
    action, then name, then type. *)
Theorem limitChangeSet_sorted (cs : list Change) (limit : Z) :
  limit < GoInt.len cs →
  StronglySorted ActionNameType_le (limitChangeSet cs limit).
Proof.
  intros Hlen. unfold limitChangeSet.
  destruct (Z.leb_spec (GoInt.len cs) limit); [lia|].
  apply sortChangesByActionNameType_StronglySorted.
Qed.

Lemma greedy_walk_grows limit (cs : list Change) names selected :
  (length selected ≤ length (greedy_walk limit cs names selected))%nat.
Proof.
  revert selected. induction names as [|name names IH]; intros selected;
    simpl; [done|].
  case_decide; [|done]. etrans; [|apply IH]. rewrite length_app. lia.
Qed.

Lemma greedy_walk_nil limit (cs : list Change) names :
  (∀ name, name ∈ names → group cs name ≠ []) →
  greedy_walk limit cs names [] = []
  ↔ ∀ name, name ∈ names → limit < Z.of_nat (length (group cs name)).
Proof.
  induction names as [|name names IH]; intros Hne; simpl.
  { split; [|done]. intros _ name Hin. by apply elem_of_nil in Hin. }
  case_decide as Hfit; simpl in Hfit.
  - split.
    + intros Hnil. exfalso.
      pose proof (greedy_walk_grows limit cs names (group cs name)) as Hlen.
      simpl in Hnil. rewrite Hnil in Hlen.
      destruct (group cs name) eqn:Hg; [|simpl in Hlen; lia].
      by apply (Hne name); [left|].
    + intros Hall. assert (name ∈ name :: names) as Hin by left.
      specialize (Hall name Hin). lia.
  - rewrite IH by (intros n Hn; apply Hne; by right). split.
    + intros Hall n [->|Hn]%elem_of_cons; [lia|by apply Hall].
    + intros Hall n Hn. apply Hall. by right.
Qed.

(** X4: from a slice that exceeds the limit the limiter returns nothing
    exactly when every record name alone has more changes than the limit
    allows; as soon as one group fits, the batch is not empty. *)
Theorem limitChangeSet_empty_iff (cs : list Change) (limit : Z) :
  GoInt.in_range limit → limit < GoInt.len cs →
  limitChangeSet cs limit = []
  ↔ ∀ c, c ∈ cs → limit < GoInt.len (group cs (Name c)).
Proof.
  intros Hrange Hlen. rewrite limitChangeSet_unfold by done.
  destruct (limitChangeSet_names cs) as [_ Hnames].
  set (names := sort_Strings _) in *.
  assert (∀ l, sortChangesByActionNameType l = [] ↔ l = []) as ->.
  { intros l. split; [|by intros ->].
    intros Hnil. apply Permutation_nil_r.
    by rewrite <-Hnil, sortChangesByActionNameType_perm. }
  rewrite greedy_walk_nil.
  - split.
    + intros Hall c Hc. apply Hall, Hnames. by exists c.
    + intros Hall name (c & Hc & <-)%Hnames. by apply Hall.
  - intros name (c & Hc & <-)%Hnames Hnil.
    assert (c ∈ group cs (Name c)) as Hin
      by (unfold group; by apply list_elem_of_filter).
    rewrite Hnil in Hin. by apply elem_of_nil in Hin.
Qed.
End limiter_more.

(** ** Ordering of a batch *)

Lemma sort_stable_sorted {A} (less : A → A → bool) (l : list A) :
  Sorted (not_after less) l → sort_stable less l = l.
Proof.
  induction 1 as [|x l Hl IH Hhd]; simpl; [done|].
  rewrite IH. destruct Hhd as [|y l Hxy]; simpl; [done|].
  unfold not_after in Hxy. by rewrite Hxy.
Qed.

(** X5: [sortChangesByActionNameType] reorders and nothing else: the result
    is a permutation of the slice, ascending in action, name and type, and
    changes that agree on all three keep the order they had. *)
Theorem sortChangesByActionNameType_stable_sort (cs : list Change) :
  sortChangesByActionNameType cs ≡ₚ cs
  ∧ StronglySorted ActionNameType_le (sortChangesByActionNameType cs)
  ∧ ∀ action name type,
      filter (λ c, Action c = action ∧ Name c = name ∧ Type_ c = type)
        (sortChangesByActionNameType cs)
      = filter (λ c, Action c = action ∧ Name c = name ∧ Type_ c = type) cs.
Proof.
  split_and!.
  - apply sortChangesByActionNameType_perm.
  - apply sortChangesByActionNameType_StronglySorted.
  - apply sortChangesByActionNameType_stable.
Qed.

(** X6: a slice that is already in ascending order of action, name and type
    is returned as it is. *)
Theorem sortChangesByActionNameType_sorted_unchanged (cs : list Change) :
  Sorted ActionNameType_le cs → sortChangesByActionNameType cs = cs.
Proof.
  intros Hsorted. apply sort_stable_sorted.
  induction Hsorted as [|a l Hl IH Hhd]; constructor; [done|].
  destruct Hhd; constructor. by apply not_after_ActionNameType.
Qed.

(** X7: sorting twice is sorting once. *)
Theorem sortChangesByActionNameType_idempotent (cs : list Change) :
  sortChangesByActionNameType (sortChangesByActionNameType cs)
  = sortChangesByActionNameType cs.
Proof. apply sort_stable_sorted, sortChangesByActionNameType_Sorted. Qed.

(** ** Assignment of changes to zones *)

Section changesByZone_more.
Context `{MapRange}.

Lemma changesByZone_assign_mono mapper (changeSet : list Change)
    (changes : gmap string (list Change)) (k : string) :
  is_Some (changes !! k) →
  is_Some (foldl (changesByZone_assign mapper) changes changeSet !! k).
Proof.
  revert changes. induction changeSet as [|c cs IH]; intros changes Hk;
    simpl; [done|].
  apply IH. unfold changesByZone_assign. destruct (String.eqb _ _); [done|].
  rewrite lookup_insert_is_Some.
  destruct (decide ((zoneIDName.FindZone mapper
                       (ensureTrailingDot (Name c))).1 = k)); auto.
Qed.

Lemma changesByZone_assign_is_Some mapper (changeSet : list Change)
    (changes : gmap string (list Change)) (c : Change) :
  c ∈ changeSet → zoneOf mapper c ≠ ""%string →
  is_Some (foldl (changesByZone_assign mapper) changes changeSet
             !! zoneOf mapper c).
Proof.
  intros Hc Hz. revert changes.
  induction changeSet as [|c' cs IH]; intros changes; simpl.
  { by apply elem_of_nil in Hc. }
  apply elem_of_cons in Hc as [<-|Hc]; [|by apply IH].
  apply changesByZone_assign_mono. unfold changesByZone_assign.
  fold (zoneOf mapper c). apply String.eqb_neq in Hz. rewrite Hz.
  rewrite lookup_insert_eq. eauto.
Qed.

(** X8: a change for which the registry answers with a zone identifier that
    is not empty is never lost: the bucket of that zone exists and holds,
    in the order of the change set, exactly the changes with that answer. *)
Theorem changesByZone_assigned (zones : gmap string HostedZone)
    (changeSet : list Change) (c : Change) :
  c ∈ changeSet → zoneOf (registryOf zones) c ≠ ""%string →
  changesByZone zones changeSet !! zoneOf (registryOf zones) c
  = Some (filter (λ c', zoneOf (registryOf zones) c'
                        = zoneOf (registryOf zones) c) changeSet)
  ∧ c ∈ filter (λ c', zoneOf (registryOf zones) c'
                      = zoneOf (registryOf zones) c) changeSet.
Proof.
  intros Hc Hz.
  assert (c ∈ filter (λ c', zoneOf (registryOf zones) c'
                            = zoneOf (registryOf zones) c) changeSet) as Hin
    by (by apply list_elem_of_filter).
  split; [|done].
  destruct (changesByZone_assign_is_Some (registryOf zones) changeSet
              (foldl changesByZone_register (∅, ∅) (range zones)).2 c Hc Hz)
    as [l Hl].
  assert (l = filter (λ c', zoneOf (registryOf zones) c'
                            = zoneOf (registryOf zones) c) changeSet) as ->.
  { apply lookup_total_correct in Hl as Hlt.
    rewrite changesByZone_assign_fold in Hlt. rewrite <-Hlt.
    destruct (changesByZone_register_fold (range zones)) as (Hempty & _).
    rewrite (list_filter_iff _ (λ c', zoneOf (registryOf zones) c'
                                     = zoneOf (registryOf zones) c));
      last first.
    { intros c'. split; [intros [? _]; done|by split]. }
    destruct ((foldl changesByZone_register (∅, ∅) (range zones)).2
                !! zoneOf (registryOf zones) c) as [v|] eqn:Hk.
    - by rewrite (lookup_total_correct _ _ _ Hk), (Hempty _ v Hk).
    - by rewrite lookup_total_alt, Hk. }
  unfold changesByZone. apply changesByZone_prune_range. split; [done|].
  intros Hnil. rewrite Hnil in Hin. by apply elem_of_nil in Hin.
Qed.

Lemma range_empty {V} : range (∅ : gmap string V) = [].
Proof. apply Permutation_nil_r. by rewrite range_perm, map_to_list_empty. Qed.

(** X9: without changes there are no buckets, and without zones every
    change is dropped. *)
Theorem changesByZone_nothing (zones : gmap string HostedZone)
    (changeSet : list Change) :
  changesByZone zones [] = ∅ ∧ changesByZone ∅ changeSet = ∅.
Proof.
  split; apply map_eq; intros k; rewrite lookup_empty;
    apply eq_None_not_Some; intros [l [-> Hne]%changesByZone_lookup].
  - done.
  - apply Hne. clear Hne. induction changeSet as [|c cs IH]; [done|].
    rewrite filter_cons, decide_False; [done|]. intros [<- Hk]. apply Hk.
    unfold zoneOf, registryOf. rewrite range_empty. simpl.
    unfold zoneIDName.FindZone. by rewrite range_empty.
Qed.

Lemma changesByZone_key_nonempty (zones : gmap string HostedZone)
    (changeSet : list Change) (k : string) :
  is_Some (changesByZone zones changeSet !! k) → k ≠ ""%string.
Proof.
  intros [l [-> Hne]%changesByZone_lookup] ->.
  apply Hne. clear Hne. induction changeSet as [|c cs IH]; [done|].
  rewrite filter_cons, decide_False; [done|]. by intros [_ ?].
Qed.

(** X10: every bucket is keyed by the identifier of one of the zones, and
    never by the empty identifier. *)
Theorem changesByZone_bucket_keys (zones : gmap string HostedZone)
    (changeSet : list Change) (k : string) :
  is_Some (changesByZone zones changeSet !! k) →
  k ≠ ""%string
  ∧ ∃ key zone, zones !! key = Some zone ∧ k = StringValue (zone_Id zone).
Proof.
  intros Hk. split; [by eapply changesByZone_key_nonempty|].
  by eapply changesByZone_keys.
Qed.
End changesByZone_more.

(** ** Listing of the zones *)

Section Zones_more.
Context {Service : Type}.
Implicit Types (p : AWSProvider Service) (w : World Service).

(** What one page, and then all pages, leave in the zone map. *)
Lemma Zones_visit_fold p (page : list HostedZone)
    (zones : gmap string HostedZone) (key : string) (zone : HostedZone) :
  foldl (Zones_visit p) zones page !! key = Some zone →
  zones !! key = Some zone
  ∨ (zone ∈ page ∧ zoneTypeFilter p zone = true
     ∧ domainFilter p (StringValue (zone_Name zone)) = true
     ∧ StringValue (zone_Id zone) = key).
Proof.
  revert zones. induction page as [|z page IH]; intros zones; simpl; [by left|].
  intros [Hl|(? & ? & ? & ?)]%IH; [|right; split_and!; [by right|done..]].
  unfold Zones_visit in Hl.
  destruct (zoneTypeFilter p z) eqn:Ht; simpl in Hl; [|by left].
  destruct (domainFilter p (StringValue (zone_Name z))) eqn:Hd; simpl in Hl;
    [|by left].
  rewrite lookup_insert in Hl. case_decide; [|by left].
  simplify_eq. right. split_and!; [by left|done..].
Qed.

Lemma Zones_visit_keeps p (page : list HostedZone)
    (zones : gmap string HostedZone) (key : string) :
  is_Some (zones !! key) → is_Some (foldl (Zones_visit p) zones page !! key).
Proof.
  revert zones. induction page as [|z page IH]; intros zones Hk; simpl; [done|].
  apply IH. unfold Zones_visit.
  destruct (zoneTypeFilter p z); simpl; [|done].
  destruct (domainFilter p _); simpl; [|done].
  rewrite lookup_insert_is_Some.
  destruct (decide (StringValue (zone_Id z) = key)); auto.
Qed.

Lemma Zones_visit_adds p (page : list HostedZone)
    (zones : gmap string HostedZone) (zone : HostedZone) :
  zone ∈ page → zoneTypeFilter p zone = true →
  domainFilter p (StringValue (zone_Name zone)) = true →
  is_Some (foldl (Zones_visit p) zones page !! StringValue (zone_Id zone)).
Proof.
  intros Hin Ht Hd. revert zones.
  induction page as [|z page IH]; intros zones; simpl.
  { by apply elem_of_nil in Hin. }
  apply elem_of_cons in Hin as [<-|Hin]; [|by apply IH].
  apply Zones_visit_keeps. unfold Zones_visit. rewrite Ht, Hd. simpl.
  rewrite lookup_insert_eq. eauto.
Qed.

Lemma Zones_pages_keeps p (pages : list (list HostedZone))
    (zones : gmap string HostedZone) (key : string) :
  is_Some (zones !! key) →
  is_Some (foldl (foldl (Zones_visit p)) zones pages !! key).
Proof.
  revert zones. induction pages as [|page pages IH]; intros zones Hk; simpl;
    [done|].
  by apply IH, Zones_visit_keeps.
Qed.

Lemma Zones_pages_adds p (pages : list (list HostedZone))
    (zones : gmap string HostedZone) (zone : HostedZone) :
  zone ∈ concat pages → zoneTypeFilter p zone = true →
  domainFilter p (StringValue (zone_Name zone)) = true →
  is_Some (foldl (foldl (Zones_visit p)) zones pages
             !! StringValue (zone_Id zone)).
Proof.
  intros Hin Ht Hd. revert zones.
  induction pages as [|page pages IH]; intros zones; simpl in *.
  { by apply elem_of_nil in Hin. }
  apply elem_of_app in Hin as [Hin|Hin]; [|by apply IH].
  by apply Zones_pages_keeps, Zones_visit_adds.
Qed.

(** X11: when the listing succeeds, [Zones] returns exactly the listed
    zones that pass the zone type filter and the domain filter, each under
    its own identifier: every returned zone is such a zone, and every such
    zone has its identifier among the keys.  The log is left alone. *)
Theorem Zones_filtered p w w' (zones : gmap string HostedZone) :
  Zones p w = (w', inl zones) →
  (ListHostedZonesPages (client p) w.1).2 = None
  ∧ w' = ((ListHostedZonesPages (client p) w.1).1.1, w.2)
  ∧ (∀ key zone, zones !! key = Some zone →
       zone ∈ concat (ListHostedZonesPages (client p) w.1).1.2
       ∧ zoneTypeFilter p zone = true
       ∧ domainFilter p (StringValue (zone_Name zone)) = true
       ∧ StringValue (zone_Id zone) = key)
  ∧ (∀ zone, zone ∈ concat (ListHostedZonesPages (client p) w.1).1.2 →
       zoneTypeFilter p zone = true →
       domainFilter p (StringValue (zone_Name zone)) = true →
       is_Some (zones !! StringValue (zone_Id zone))).
Proof.
  unfold Zones.
  destruct (ListHostedZonesPages (client p) w.1) as [[service pages] err].
  destruct err; intros ?; simplify_eq. simpl.
  split_and!; [done..| |].
  - assert (∀ zs key zone,
      foldl (foldl (Zones_visit p)) zs pages !! key = Some zone →
      zs !! key = Some zone
      ∨ (zone ∈ concat pages ∧ zoneTypeFilter p zone = true
         ∧ domainFilter p (StringValue (zone_Name zone)) = true
         ∧ StringValue (zone_Id zone) = key)) as Hpages.
    { induction pages as [|page pages IH]; intros zs key zone; simpl;
        [by left|].
      intros [Hl|(? & ? & ? & ?)]%IH.
      - apply Zones_visit_fold in Hl as [?|(? & ? & ? & ?)]; [by left|].
        right. split_and!; [|done..]. apply elem_of_app. by left.
      - right. split_and!; [|done..]. apply elem_of_app. by right. }
    intros key zone [Hl|?]%Hpages; [|done]. by rewrite lookup_empty in Hl.
  - intros zone Hin Ht Hd. by apply Zones_pages_adds.
Qed.

(** When the listing fails, [Zones] returns the error of the client and no
    zones, whatever pages were delivered before the failure. *)
Lemma Zones_listing_error p w (err : error) :
  (ListHostedZonesPages (client p) w.1).2 = Some err →
  Zones p w = (((ListHostedZonesPages (client p) w.1).1.1, w.2), inr err).
Proof.
  unfold Zones.
  destruct (ListHostedZonesPages (client p) w.1) as [[service pages] e].
  simpl. by intros ->.
Qed.
End Zones_more.

(** ** Submission *)

Section submit_more.
Context {Service : Type} `{MapRange}.
Implicit Types (p : AWSProvider Service) (w : World Service).

(** In dry-run mode the loop only announces the batches. *)
Lemma submitChanges_loop_dryRun p zones entries w :
  dryRun p = true →
  submitChanges_loop p zones entries w =
    ((w.1, w.2 ++ flat_map (λ e, desired_changes
                                   (limitChangeSet e.2 maxChangeCount)) entries),
     false).
Proof.
  intros Hdry. revert w.
  induction entries as [|[z cs] entries IH]; intros [service events]; simpl.
  { by rewrite app_nil_r. }
  rewrite submitChanges_zone_unfold, Hdry. simpl. rewrite IH. simpl.
  by rewrite <-app_assoc.
Qed.

(** X12: in dry-run mode [submitChanges] asks the service for the zones
    and for nothing else: with changes to submit and the zones listed it
    returns nil, leaves the service in the state the listing left it in,
    makes no call of [ChangeResourceRecordSets], logs no error, and
    announces every change of every batch it would have sent. *)
Theorem submitChanges_dryRun p (changes : list Change) w w'
    (zones : gmap string HostedZone) :
  dryRun p = true → changes ≠ [] → Zones p w = (w', inl zones) →
  (submitChanges p changes w).2 = Returned None
  ∧ (submitChanges p changes w).1.1 = w'.1
  ∧ calls_of (submitChanges p changes w).1.2 = calls_of w.2
  ∧ errors_of (submitChanges p changes w).1.2 = errors_of w.2
  ∧ ∀ z cs c,
      changesByZone zones changes !! z = Some cs →
      c ∈ limitChangeSet cs maxChangeCount →
      LogInfo_DesiredChange (Action c) (Name c) (Type_ c)
      ∈ (submitChanges p changes w).1.2.
Proof.
  intros Hdry Hne HZ.
  assert (w'.2 = w.2) as Hlog.
  { unfold Zones in HZ.
    destruct (ListHostedZonesPages (client p) w.1) as [[service pages] err].
    destruct err; by simplify_eq. }
  assert (submitChanges p changes w =
    ((w'.1,
      w.2 ++ flat_map (λ e, desired_changes (limitChangeSet e.2 maxChangeCount))
               (range (changesByZone zones changes))),
     Returned None)) as ->.
  { unfold submitChanges. destruct changes as [|c changes]; [done|].
    change (GoInt.len (c :: changes) =? 0) with false. cbv iota.
    rewrite HZ, submitChanges_loop_dryRun by done. by rewrite Hlog. }
  simpl. split_and!; [done..| | |].
  - rewrite calls_of_app.
    assert (∀ entries : list (string * list Change),
      calls_of (flat_map (λ e, desired_changes
                  (limitChangeSet e.2 maxChangeCount)) entries) = []) as ->.
    { induction entries as [|e entries IH]; simpl; [done|].
      by rewrite calls_of_app, calls_of_desired_changes, IH. }
    by rewrite app_nil_r.
  - rewrite errors_of_app.
    assert (∀ limCs, errors_of (desired_changes limCs) = []) as Hdesired.
    { induction limCs as [|c limCs IH]; [done|]. apply IH. }
    assert (∀ entries : list (string * list Change),
      errors_of (flat_map (λ e, desired_changes
                   (limitChangeSet e.2 maxChangeCount)) entries) = []) as ->.
    { induction entries as [|e entries IH]; simpl; [done|].
      by rewrite errors_of_app, Hdesired, IH. }
    by rewrite app_nil_r.
  - intros z cs c Hbucket Hc. apply elem_of_app. right.
    apply list_elem_of_In, in_flat_map. exists (z, cs). split.
    + apply list_elem_of_In. rewrite range_perm.
      by apply elem_of_map_to_list.
    + apply list_elem_of_In. unfold desired_changes. simpl.
      apply list_elem_of_fmap. by exists c.
Qed.

(** X13: when the listing of the zones fails, [submitChanges] returns the
    error having logged nothing and submitted nothing. *)
Theorem submitChanges_listing_error p (changes : list Change) w (err : error) :
  changes ≠ [] → (ListHostedZonesPages (client p) w.1).2 = Some err →
  submitChanges p changes w =
    (((ListHostedZonesPages (client p) w.1).1.1, w.2), Returned (Some err)).
Proof.
  intros Hne Herr. unfold submitChanges.
  destruct changes as [|c changes]; [done|].
  change (GoInt.len (c :: changes) =? 0) with false. cbv iota.
  by rewrite (Zones_listing_error p w err Herr).
Qed.

Lemma maxChangeCount_in_range : GoInt.in_range maxChangeCount.
Proof. unfold GoInt.in_range, GoInt.min_int, GoInt.max_int, maxChangeCount. lia. Qed.

Lemma submitChanges_calls p (changes : list Change) w :
  ∃ calls,
    calls_of (submitChanges p changes w).1.2 = calls_of w.2 ++ calls
    ∧ NoDup (calls.*1)
    ∧ ∀ z batch, (z, batch) ∈ calls →
        GoInt.len batch ≤ maxChangeCount
        ∧ batch ⊆+ changes
        ∧ z ≠ ""%string.
Proof.
  unfold submitChanges. destruct changes as [|c changes].
  { exists []. simpl. split_and!.
    - by rewrite calls_of_app.
    - constructor.
    - intros z batch Hin. by apply elem_of_nil in Hin. }
  change (GoInt.len (c :: changes) =? 0) with false. cbv iota.
  destruct (Zones p w) as [w' [zones|err]] eqn:HZ; simpl.
  - assert (w'.2 = w.2) as Hlog.
    { unfold Zones in HZ.
      destruct (ListHostedZonesPages (client p) w.1) as [[service pages] err].
      destruct err; by simplify_eq. }
    destruct (submitChanges_loop_calls p zones
                (range (changesByZone zones (c :: changes))) w') as [_ Hc].
    { intros e. apply changesByZone_keys_in_zones. by eapply Zones_keyed. }
    destruct (submitChanges_loop _ _ _ _) as [w'' panicked]. simpl in *.
    rewrite Hc, Hlog. destruct (dryRun p).
    { exists []. split_and!; [done|constructor|].
      intros z batch Hin. by apply elem_of_nil in Hin. }
    eexists. split; [done|]. split.
    + assert (∀ entries : list (string * list Change),
        (map (λ e, (e.1, limitChangeSet e.2 maxChangeCount)) entries).*1
        = entries.*1) as ->.
      { induction entries as [|e entries IH]; [done|].
        rewrite map_cons, !fmap_cons. by f_equal. }
      rewrite range_perm. apply NoDup_fst_map_to_list.
    + intros z batch ([z' cs] & [= -> ->] & Hin)%list_elem_of_fmap.
      rewrite range_perm in Hin. apply elem_of_map_to_list in Hin. simpl.
      assert (is_Some (changesByZone zones (c :: changes) !! z')) as Hsome
        by eauto.
      apply changesByZone_lookup in Hin as [-> _]. split_and!.
      * destruct (limitChangeSet_length
          (filter (λ c0, zoneOf (registryOf zones) c0 = z' ∧ z' ≠ ""%string)
             (c :: changes)) maxChangeCount maxChangeCount_in_range)
          as [Hle|[_ Hneg]]; [done|]. by unfold maxChangeCount in Hneg.
      * etrans; [apply limitChangeSet_contained|].
        apply sublist_submseteq, sublist_filter.
      * by apply (changesByZone_key_nonempty zones (c :: changes)).
  - exists []. split_and!.
    + unfold Zones in HZ.
      destruct (ListHostedZonesPages (client p) w.1) as [[service pages] e].
      destruct e; simplify_eq. simpl. by rewrite app_nil_r.
    + constructor.
    + intros z batch Hin. by apply elem_of_nil in Hin.
Qed.

(** X14: whatever the service answers, every batch [submitChanges] sends
    holds at most 4000 changes, all of them taken from the changes it was
    given, no zone is sent more than one batch, and a batch is never sent to
    the empty zone identifier. *)
Theorem submitChanges_batches p (changes : list Change) w :
  ∃ calls,
    calls_of (submitChanges p changes w).1.2 = calls_of w.2 ++ calls
    ∧ NoDup (calls.*1)
    ∧ ∀ z batch, (z, batch) ∈ calls →
        GoInt.len batch ≤ maxChangeCount
        ∧ batch ⊆+ changes
        ∧ z ≠ ""%string.
Proof. apply submitChanges_calls. Qed.
End submit_more.

(** ** Wildcard names *)

Lemma HasPrefix_true (s prefix : string) :
  HasPrefix s prefix = true ↔ ∃ rest, s = prefix +:+ rest.
Proof.
  unfold HasPrefix. rewrite andb_true_iff, Nat.leb_le, String.eqb_eq. split.
  - revert s. induction prefix as [|d prefix IH]; intros s [Hlen Hsub].
    { by exists s. }
    destruct s as [|c s]; simpl in Hlen, Hsub; [lia|].
    injection Hsub as -> Hsub.
    destruct (IH s) as [rest ->]; [split; [lia|done]|]. by exists rest.
  - intros [rest ->]. rewrite length_append. split; [lia|].
    induction prefix as [|d prefix IH]; simpl.
    + by destruct rest.
    + by rewrite IH.
Qed.

Lemma Replace1_prefix (s old new : string) :
  HasPrefix s old = true →
  Replace1 s old new = new +:+ GoString.drop (String.length old) s.
Proof. intros Hp. destruct s; simpl; by rewrite Hp. Qed.

Lemma wildcardUnescape_escaped (rest : string) :
  wildcardUnescape (escapedAsterisk +:+ rest) = "*" +:+ rest.
Proof.
  unfold wildcardUnescape.
  assert (HasPrefix (escapedAsterisk +:+ rest) escapedAsterisk = true) as Hp
    by (apply HasPrefix_true; by exists rest).
  rewrite Hp, Replace1_prefix by done. by rewrite drop_append.
Qed.

(** X15: [wildcardUnescape] turns a leading escape sequence of the asterisk
    into the asterisk and leaves the rest of the name as it is, also where
    the rest holds the escape sequence again; a name that does not start
    with the escape sequence is returned unchanged; unescaping twice is
    unescaping once. *)
Theorem wildcardUnescape_leading_only :
  (∀ rest, wildcardUnescape ("\052" +:+ rest) = "*" +:+ rest)
  ∧ (∀ s, (∀ rest, s ≠ "\052" +:+ rest) → wildcardUnescape s = s)
  ∧ (∀ s, wildcardUnescape (wildcardUnescape s) = wildcardUnescape s).
Proof.
  split_and!.
  - apply wildcardUnescape_escaped.
  - intros s Hs. unfold wildcardUnescape.
    destruct (HasPrefix s escapedAsterisk) eqn:Hp; [|done].
    apply HasPrefix_true in Hp as [rest ->]. by destruct (Hs rest).
  - intros s. destruct (HasPrefix s escapedAsterisk) eqn:Hp.
    + apply HasPrefix_true in Hp as [rest ->].
      rewrite wildcardUnescape_escaped. unfold wildcardUnescape.
      assert (HasPrefix ("*" +:+ rest) escapedAsterisk = false) as ->; [|done].
      apply not_true_iff_false. intros [r Hr]%HasPrefix_true. discriminate Hr.
    + assert (wildcardUnescape s = s) as Hs
        by (unfold wildcardUnescape; by rewrite Hp).
      by rewrite !Hs.
Qed.

(** ** Reading the records *)

Section Records_facts.
Context {Service : Type} `{MapRange}.
Variable supportedRecordType : string → bool.
Variable NewEndpointWithTTL : string → string → string → Z → Endpoint.
Variable ListResourceRecordSetsPages :
  option string → Service → Service * list (list ResourceRecordSet) * option error.

Local Abbreviation visit :=
  (Records_visit supportedRecordType NewEndpointWithTTL).
Local Abbreviation made_of :=
  (endpoints_of supportedRecordType NewEndpointWithTTL).

Lemma foldl_snoc_map {A B} (f : A → B) (l : list A) (acc : list B) :
  foldl (λ acc x, acc ++ [f x]) acc l = acc ++ map f l.
Proof.
  revert acc. induction l as [|x l IH]; intros acc; simpl.
  { by rewrite app_nil_r. }
  by rewrite IH, <-app_assoc.
Qed.

(** The callback appends the endpoints of the record set and touches
    nothing it was given. *)
Lemma Records_visit_app (endpoints : list Endpoint) (r : ResourceRecordSet) :
  visit endpoints r = endpoints ++ made_of r.
Proof.
  unfold Records_visit, endpoints_of.
  destruct (supportedRecordType _); simpl; [|by rewrite app_nil_r].
  rewrite foldl_snoc_map.
  destruct (rrs_TTL r), (rrs_AliasTarget r); simpl;
    by rewrite <-?app_assoc, ?app_nil_r.
Qed.

Lemma Records_pages_app (pages : list (list ResourceRecordSet))
    (endpoints : list Endpoint) :
  foldl (foldl visit) endpoints pages
  = endpoints ++ flat_map made_of (concat pages).
Proof.
  assert (∀ page endpoints,
    foldl visit endpoints page = endpoints ++ flat_map made_of page) as Hpage.
  { induction page as [|r page IH]; intros eps; simpl.
    - by rewrite app_nil_r.
    - by rewrite IH, Records_visit_app, <-app_assoc. }
  revert endpoints. induction pages as [|page pages IH]; intros eps; simpl.
  { by rewrite app_nil_r. }
  by rewrite IH, Hpage, flat_map_app, <-app_assoc.
Qed.

Lemma Records_loop_ok entries service endpoints service' result :
  Records_loop supportedRecordType NewEndpointWithTTL
    ListResourceRecordSetsPages entries service endpoints
  = (service', inl result) →
  result = endpoints
           ++ flat_map made_of
                (Records_listed ListResourceRecordSetsPages entries service).
Proof.
  revert service endpoints.
  induction entries as [|[k z] entries IH]; intros service endpoints; simpl.
  { intros [= _ <-]. by rewrite app_nil_r. }
  destruct (ListResourceRecordSetsPages (zone_Id z) service)
    as [[service1 pages] err]. simpl.
  destruct err; [done|]. intros Hloop%IH.
  by rewrite Hloop, Records_pages_app, flat_map_app, <-app_assoc.
Qed.

Lemma Records_loop_error entries service endpoints service' (err : error) :
  Records_loop supportedRecordType NewEndpointWithTTL
    ListResourceRecordSetsPages entries service endpoints
  = (service', inr err) →
  ∃ entry service0,
    entry ∈ entries
    ∧ (ListResourceRecordSetsPages (zone_Id entry.2) service0).2 = Some err.
Proof.
  revert service endpoints.
  induction entries as [|[k z] entries IH]; intros service endpoints; simpl.
  { done. }
  destruct (ListResourceRecordSetsPages (zone_Id z) service)
    as [[service1 pages] e] eqn:Hlist.
  destruct e as [e|].
  - intros [= _ ->]. exists (k, z), service. split; [by left|].
    simpl. by rewrite Hlist.
  - intros (entry & service0 & Hin & Herr)%IH.
    exists entry, service0. split; [by right|done].
Qed.

(** X16: when [Records] succeeds, it returns, zone by zone and in the
    order of the listing, the endpoints of the record sets the service
    delivered and nothing else, and it writes nothing to the log. *)
Theorem Records_endpoints (p : AWSProvider Service) (w w' : World Service)
    (endpoints : list Endpoint) :
  Records supportedRecordType NewEndpointWithTTL ListResourceRecordSetsPages
    p w = (w', inl endpoints) →
  ∃ w1 zones,
    Zones p w = (w1, inl zones)
    ∧ endpoints =
        flat_map made_of
          (Records_listed ListResourceRecordSetsPages (range zones) w1.1)
    ∧ w'.2 = w.2.
Proof.
  unfold Records. destruct (Zones p w) as [w1 [zones|err]] eqn:HZ; [|done].
  destruct (Records_loop _ _ _ _ _ _) as [service r] eqn:Hloop.
  intros [= <- ->]. exists w1, zones. split_and!; [done| |].
  - by apply Records_loop_ok in Hloop.
  - simpl. unfold Zones in HZ.
    destruct (ListHostedZonesPages (client p) w.1) as [[s pages] e].
    destruct e; by simplify_eq.
Qed.

(** X17: an error of [Records] is an error the service reported: the one
    of the listing of the zones, after which no records are asked for, or
    the one of the listing of the records of one of the zones. *)
Theorem Records_error (p : AWSProvider Service) (w w' : World Service)
    (err : error) :
  Records supportedRecordType NewEndpointWithTTL ListResourceRecordSetsPages
    p w = (w', inr err) →
  Zones p w = (w', inr err)
  ∨ ∃ w1 zones key zone service0,
      Zones p w = (w1, inl zones)
      ∧ zones !! key = Some zone
      ∧ (ListResourceRecordSetsPages (zone_Id zone) service0).2 = Some err.
Proof.
  unfold Records. destruct (Zones p w) as [w1 [zones|e]] eqn:HZ.
  - destruct (Records_loop _ _ _ _ _ _) as [service r] eqn:Hloop.
    intros [= <- ->]. right.
    apply Records_loop_error in Hloop as ([key zone] & service0 & Hin & Herr).
    exists w1, zones, key, zone, service0. split_and!; [done| |done].
    rewrite range_perm in Hin. by apply elem_of_map_to_list in Hin.
  - intros [= <- ->]. by left.
Qed.

(** X18: a record set of a type that is not supported yields no endpoint;
    a record set of a supported type yields one endpoint for each of its
    values and one more for its alias target, so as many as it has values
    and alias targets together. *)
Theorem Records_visit_count (endpoints : list Endpoint)
    (r : ResourceRecordSet) :
  (supportedRecordType (StringValue (rrs_Type r)) = false →
     visit endpoints r = endpoints)
  ∧ (supportedRecordType (StringValue (rrs_Type r)) = true →
     length (visit endpoints r)
     = (length endpoints + length (rrs_ResourceRecords r)
        + match rrs_AliasTarget r with Some _ => 1 | None => 0 end)%nat).
Proof.
  rewrite Records_visit_app. unfold endpoints_of. split; intros ->.
  - by rewrite app_nil_r.
  - rewrite !length_app, length_map. destruct (rrs_AliasTarget r); simpl; lia.
Qed.
End Records_facts.

(** ** Written and read back *)

Section round_trip.
Context `{MapRange}.
Variable IsConfigured : Z → bool.
Variable supportedRecordType : string → bool.
Variable NewEndpointWithTTL : string → string → string → Z → Endpoint.

Lemma isAWSLoadBalancer_CNAME ep :
  isAWSLoadBalancer ep = true → RecordType ep = RecordTypeCNAME.
Proof.
  unfold isAWSLoadBalancer.
  destruct (String.eqb (RecordType ep) RecordTypeCNAME) eqn:Ht; [|done].
  intros _. by apply String.eqb_eq.
Qed.

(** X19: when the record type [newChange] writes for an endpoint is a
    supported one, the record set it writes is read back by the callback of
    [Records] as one endpoint with the name (unescaped), the target and the
    record type of the endpoint it was written for, also when it was written
    as an alias of type A; its TTL is the one written, and none for an
    alias.  When the written type is not supported, nothing is read back. *)
Theorem newChange_read_back (action : string) (ep : Endpoint) :
  (supportedRecordType (Type_ (newChange IsConfigured action ep)) = true →
   Records_visit supportedRecordType NewEndpointWithTTL []
     (ResourceRecordSet_of (newChange IsConfigured action ep))
   = [NewEndpointWithTTL (wildcardUnescape (DNSName ep)) (Target ep)
        (RecordType ep)
        (default 0 (TTL (newChange IsConfigured action ep)))])
  ∧ (supportedRecordType (Type_ (newChange IsConfigured action ep)) = false →
     Records_visit supportedRecordType NewEndpointWithTTL []
       (ResourceRecordSet_of (newChange IsConfigured action ep))
     = []).
Proof.
  split; intros Hsup; unfold Records_visit, ResourceRecordSet_of; simpl;
    rewrite Hsup; simpl; [|done].
  unfold newChange in *.
  destruct (isAWSLoadBalancer ep) eqn:Hlb; simpl.
  - by rewrite (isAWSLoadBalancer_CNAME ep Hlb).
  - done.
Qed.
End round_trip.

(** ** Load balancers *)

Lemma HasSuffix_trans (s t u : string) :
  GoString.HasSuffix s t = true → GoString.HasSuffix t u = true →
  GoString.HasSuffix s u = true.
Proof.
  intros [p ->]%HasSuffix_true [q ->]%HasSuffix_true.
  apply HasSuffix_true. exists (p +:+ q). by rewrite append_assoc.
Qed.

Lemma canonicalHostedZones_elb suffix zone :
  canonicalHostedZones !! suffix = Some zone →
  GoString.HasSuffix suffix elbHostnameSuffix = true.
Proof.
  rewrite canonicalHostedZones_lookup. intros Hin.
  assert (forallb (λ e, GoString.HasSuffix e.1 elbHostnameSuffix)
            canonicalHostedZones_entries = true) as Hall
    by (vm_compute; reflexivity).
  rewrite forallb_forall in Hall. by apply list_elem_of_In, Hall in Hin.
Qed.

(** X20: an endpoint is taken for a load balancer exactly when its type is
    CNAME and its target ends in a key of the table; such a target ends in
    [.elb.amazonaws.com], so no target outside that domain is ever turned
    into an alias. *)
Theorem isAWSLoadBalancer_iff `{MapRange} (ep : Endpoint) :
  (isAWSLoadBalancer ep = true
   ↔ RecordType ep = RecordTypeCNAME
     ∧ ∃ suffix zone, canonicalHostedZones !! suffix = Some zone
                      ∧ GoString.HasSuffix (Target ep) suffix = true)
  ∧ (isAWSLoadBalancer ep = true →
     GoString.HasSuffix (Target ep) ".elb.amazonaws.com" = true).
Proof.
  assert (isAWSLoadBalancer ep = true
   ↔ RecordType ep = RecordTypeCNAME
     ∧ ∃ suffix zone, canonicalHostedZones !! suffix = Some zone
                      ∧ GoString.HasSuffix (Target ep) suffix = true) as Hiff.
  { split.
    - intros Hlb. split.
      + unfold isAWSLoadBalancer in Hlb.
        destruct (String.eqb (RecordType ep) RecordTypeCNAME) eqn:Ht; [|done].
        by apply String.eqb_eq.
      + destruct (canonicalHostedZones_match_dec (Target ep))
          as [(s & z & ? & ?)|Hnone]; [by exists s, z|].
        rewrite isAWSLoadBalancer_false in Hlb; [done|by right].
    - intros [Ht (s & z & Hl & Hs)]. by eapply isAWSLoadBalancer_true. }
  split; [done|]. intros (_ & s & z & Hl & Hs)%Hiff.
  eapply HasSuffix_trans; [done|]. by eapply canonicalHostedZones_elb.
Qed.

(** X21: every change [newChanges] builds is well formed: an alias record
    set of type A without TTL and values, or a plain record set with a TTL
    and exactly one value; there is one change for each endpoint, in order,
    with the given action and the name of its endpoint. *)
Theorem newChanges_well_formed (IsConfigured : Z → bool) `{MapRange}
    (action : string) (endpoints : list Endpoint) :
  Forall well_formed (newChanges IsConfigured action endpoints)
  ∧ Forall2 (λ c ep, Action c = action ∧ Name c = DNSName ep)
      (newChanges IsConfigured action endpoints) endpoints.
Proof.
  unfold newChanges. split.
  - apply Forall_forall. intros c (ep & -> & _)%list_elem_of_fmap.
    unfold well_formed, newChange. destruct (isAWSLoadBalancer ep); simpl.
    + left. split_and!; [by eexists|done..].
    + right. split_and!; [done|by eexists|done].
  - induction endpoints as [|ep eps IH]; simpl; constructor; [|done].
    unfold newChange. by destruct (isAWSLoadBalancer ep).
Qed.

(** ** Single-purpose calls and empty plans *)

Section single_purpose.
Context {Service : Type} `{MapRange}.
Variable IsConfigured : Z → bool.
Implicit Types (p : AWSProvider Service) (w : World Service).

(** X22: a plan without creations, updates and deletions makes
    [ApplyChanges] return nil without asking the service for anything: the
    service keeps its state and the log gains the one line that all records
    are up to date.  The old versions of updated endpoints play no part. *)
Theorem ApplyChanges_nothing_to_do p (plan : Changes) w :
  Create plan = [] → UpdateNew plan = [] → Delete plan = [] →
  ApplyChanges IsConfigured p plan w
  = ((w.1, w.2 ++ [LogInfo_UpToDate]), Returned None).
Proof. unfold ApplyChanges. by intros -> -> ->. Qed.

Lemma submitChanges_newChanges_calls p (action : string)
    (endpoints : list Endpoint) w :
  ∃ calls,
    calls_of (submitChanges p (newChanges IsConfigured action endpoints) w).1.2
    = calls_of w.2 ++ calls
    ∧ ∀ z batch c, (z, batch) ∈ calls → c ∈ batch →
        Action c = action
        ∧ ∃ ep, ep ∈ endpoints ∧ c = newChange IsConfigured action ep.
Proof.
  destruct (submitChanges_calls p (newChanges IsConfigured action endpoints) w)
    as (calls & Hcalls & _ & Hbatch).
  exists calls. split; [done|]. intros z batch c Hin Hc.
  destruct (Hbatch z batch Hin) as (_ & Hsub & _).
  apply (elem_of_submseteq _ _ _ Hc) in Hsub.
  unfold newChanges in Hsub. apply list_elem_of_fmap in Hsub as (ep & -> & Hep).
  split; [|by exists ep]. unfold newChange. by destruct (isAWSLoadBalancer ep).
Qed.

(** X23: the single-purpose calls keep to their purpose: every change in
    every batch [CreateRecords] sends is a creation built from one of the
    given endpoints, every change [UpdateRecords] sends is an upsert built
    from one of the new endpoints, whatever the old ones are, and every
    change [DeleteRecords] sends is a deletion. *)
Theorem single_purpose_actions p (endpoints old : list Endpoint) w :
  (∃ calls,
     calls_of (CreateRecords IsConfigured p endpoints w).1.2
     = calls_of w.2 ++ calls
     ∧ ∀ z batch c, (z, batch) ∈ calls → c ∈ batch →
         Action c = ChangeActionCreate
         ∧ ∃ ep, ep ∈ endpoints
                 ∧ c = newChange IsConfigured ChangeActionCreate ep)
  ∧ (∃ calls,
       calls_of (UpdateRecords IsConfigured p endpoints old w).1.2
       = calls_of w.2 ++ calls
       ∧ ∀ z batch c, (z, batch) ∈ calls → c ∈ batch →
           Action c = ChangeActionUpsert
           ∧ ∃ ep, ep ∈ endpoints
                   ∧ c = newChange IsConfigured ChangeActionUpsert ep)
  ∧ (∃ calls,
       calls_of (DeleteRecords IsConfigured p endpoints w).1.2
       = calls_of w.2 ++ calls
       ∧ ∀ z batch c, (z, batch) ∈ calls → c ∈ batch →
           Action c = ChangeActionDelete
           ∧ ∃ ep, ep ∈ endpoints
                   ∧ c = newChange IsConfigured ChangeActionDelete ep).
Proof.
  unfold CreateRecords, UpdateRecords, DeleteRecords.
  split_and!; apply submitChanges_newChanges_calls.
Qed.
End single_purpose.

(** ** Metrics label of a request *)

Lemma Split_slash_nonempty (path : string) : Split_slash path ≠ [].
Proof.
  induction path as [|c rest IH]; simpl; [done|].
  destruct (Ascii.eqb c "/"); [done|]. by destruct (Split_slash rest).
Qed.

Lemma Split_slash_last (c : ascii) (rest : string) :
  last (Split_slash (String c rest)) =
    if Ascii.eqb c "/" then last (Split_slash rest)
    else match Split_slash rest with
         | [part] => Some (String c part)
         | _ => last (Split_slash rest)
         end.
Proof.
  pose proof (Split_slash_nonempty rest) as Hne. simpl.
  destruct (Ascii.eqb c "/").
  - by destruct (Split_slash rest).
  - by destruct (Split_slash rest) as [|part [|part' parts]].
Qed.

(** A path without a slash is its own single part. *)
Lemma Split_slash_single (path part : string) :
  Split_slash path = [part] ↔ contains_slash path = false ∧ part = path.
Proof.
  revert part. induction path as [|c rest IH]; intros part; simpl.
  { split; [by intros [= <-]|by intros [_ ->]]. }
  pose proof (Split_slash_nonempty rest) as Hne.
  destruct (Ascii.eqb c "/"); simpl.
  - split; [|by intros [? _]]. intros [= _ Hnil]. done.
  - destruct (Split_slash rest) as [|part0 parts] eqn:Hsplit; [done|].
    split.
    + intros [= <- ->]. by destruct (proj1 (IH part0) eq_refl) as [-> ->].
    + intros [Hno ->].
      pose proof (proj2 (IH rest) (conj Hno eq_refl)) as Heq.
      by simplify_eq.
Qed.

(** X24: the path processor never fails: it returns the part of the path
    after its last slash, or the whole path when there is no slash; what it
    returns holds no slash. *)
Theorem PathProcessor_last_part (path : string) :
  ∃ dir part,
    PathProcessor path = Some part
    ∧ path = dir +:+ part
    ∧ (dir = ""%string ∨ GoString.HasSuffix dir "/" = true)
    ∧ contains_slash part = false.
Proof.
  unfold PathProcessor. induction path as [|c rest IH].
  { exists ""%string, ""%string. by split_and!; [..|left|]. }
  destruct IH as (dir & part & Hlast & -> & Hdir & Hno).
  rewrite Split_slash_last. destruct (Ascii.eqb_spec c "/") as [->|Hc].
  - exists (String "/" dir), part. split_and!; [done..| |done]. right.
    destruct Hdir as [->|Hdir]; [done|].
    apply HasSuffix_true in Hdir as [q ->]. apply HasSuffix_true.
    by exists (String "/" q).
  - destruct (Split_slash (dir +:+ part)) as [|part0 [|part1 parts]] eqn:Hsplit.
    + by destruct (Split_slash_nonempty (dir +:+ part)).
    + apply Split_slash_single in Hsplit as [Hnone ->].
      exists ""%string, (String c (dir +:+ part)).
      split_and!; [done..|by left|]. simpl.
      apply Ascii.eqb_neq in Hc. by rewrite Hc.
    + exists (String c dir), part. split_and!; [done..| |done]. right.
      destruct Hdir as [->|Hdir].
      * rewrite append_nil in Hsplit. simpl in Hlast.
        assert (Split_slash part = [part]) as Hsingle
          by (by apply Split_slash_single).
        rewrite Hsingle in Hsplit. done.
      * apply HasSuffix_true in Hdir as [q ->]. apply HasSuffix_true.
        by exists (String c q).
Qed.

Section plan_origin.
Context {Service : Type} `{MapRange}.
Variable IsConfigured : Z → bool.

(** X25: every change [ApplyChanges] sends was built from the plan: it is
    the creation of an endpoint to create, the upsert of the new version of
    an endpoint to update, or the deletion of an endpoint to delete; the old
    versions of updated endpoints are never sent. *)
Theorem ApplyChanges_sends_the_plan (p : AWSProvider Service)
    (plan : Changes) (w : World Service) :
  ∃ calls,
    calls_of (ApplyChanges IsConfigured p plan w).1.2 = calls_of w.2 ++ calls
    ∧ ∀ z batch c, (z, batch) ∈ calls → c ∈ batch →
        (∃ ep, ep ∈ Create plan
               ∧ c = newChange IsConfigured ChangeActionCreate ep)
        ∨ (∃ ep, ep ∈ UpdateNew plan
                 ∧ c = newChange IsConfigured ChangeActionUpsert ep)
        ∨ (∃ ep, ep ∈ Delete plan
                 ∧ c = newChange IsConfigured ChangeActionDelete ep).
Proof.
  unfold ApplyChanges.
  destruct (submitChanges_calls p
    (newChanges IsConfigured ChangeActionCreate (Create plan)
     ++ newChanges IsConfigured ChangeActionUpsert (UpdateNew plan)
     ++ newChanges IsConfigured ChangeActionDelete (Delete plan)) w)
    as (calls & Hcalls & _ & Hbatch).
  exists calls. split; [done|]. intros z batch c Hin Hc.
  destruct (Hbatch z batch Hin) as (_ & Hsub & _).
  apply (elem_of_submseteq _ _ _ Hc) in Hsub.
  unfold newChanges in Hsub.
  rewrite !elem_of_app, !list_elem_of_fmap in Hsub.
  destruct Hsub as [(ep & -> & ?)|[(ep & -> & ?)|(ep & -> & ?)]]; eauto.
Qed.
End plan_origin.

(** * Further instances *)

Lemma limitChangeSet_idempotent_witness :
  GoInt.in_range 2
  ∧ @limitChangeSet range_canonical
      (@limitChangeSet range_canonical
         [sample_a1; sample_a2; sample_a3; sample_b1] 2) 2
    = @limitChangeSet range_canonical
        [sample_a1; sample_a2; sample_a3; sample_b1] 2.
Proof.
  split; [exact in_range_2|].
  apply (@limitChangeSet_idempotent range_canonical). exact in_range_2.
Defined.

Lemma limitChangeSet_sorted_witness :
  2 < GoInt.len [sample_t2; sample_b1; sample_a1]
  ∧ StronglySorted ActionNameType_le
      (@limitChangeSet range_canonical [sample_t2; sample_b1; sample_a1] 2).
Proof.
  split; [by vm_compute|].
  apply (@limitChangeSet_sorted range_canonical). by vm_compute.
Defined.

Lemma limitChangeSet_empty_iff_witness :
  (GoInt.in_range 2 ∧ 2 < GoInt.len [sample_a1; sample_a2; sample_a3])
  ∧ (@limitChangeSet range_canonical [sample_a1; sample_a2; sample_a3] 2 = []
     ↔ ∀ c, c ∈ [sample_a1; sample_a2; sample_a3] →
         2 < GoInt.len (group [sample_a1; sample_a2; sample_a3] (Name c))).
Proof.
  split; [split; [exact in_range_2|by vm_compute]|].
  apply (@limitChangeSet_empty_iff range_canonical);
    [exact in_range_2|by vm_compute].
Defined.

Lemma sortChangesByActionNameType_sorted_unchanged_witness :
  Sorted ActionNameType_le [sample_a1; sample_a2]
  ∧ sortChangesByActionNameType [sample_a1; sample_a2]
    = [sample_a1; sample_a2].
Proof.
  assert (Sorted ActionNameType_le [sample_a1; sample_a2]) as Hsorted.
  { apply Sorted_cons; [apply Sorted_cons; [apply Sorted_nil|apply HdRel_nil]|].
    apply HdRel_cons. right. split; [reflexivity|].
    right. split; reflexivity. }
  split; [exact Hsorted|].
  by apply sortChangesByActionNameType_sorted_unchanged.
Defined.

Lemma changesByZone_assigned_witness :
  (sample_a1 ∈ sample_changes
   ∧ @zoneOf range_canonical (@registryOf range_canonical sample_zones)
       sample_a1 ≠ ""%string)
  ∧ @changesByZone range_canonical sample_zones sample_changes
      !! @zoneOf range_canonical (@registryOf range_canonical sample_zones)
           sample_a1
    = Some (filter
              (λ c', @zoneOf range_canonical
                       (@registryOf range_canonical sample_zones) c'
                     = @zoneOf range_canonical
                         (@registryOf range_canonical sample_zones) sample_a1)
              sample_changes).
Proof.
  assert (sample_a1 ∈ sample_changes) as Hin by left.
  assert (@zoneOf range_canonical (@registryOf range_canonical sample_zones)
            sample_a1 ≠ ""%string) as Hzone by (by vm_compute).
  split; [by split|].
  apply (proj1 (@changesByZone_assigned range_canonical sample_zones
                  sample_changes sample_a1 Hin Hzone)).
Defined.

Lemma changesByZone_bucket_keys_witness :
  is_Some (@changesByZone range_canonical sample_zones sample_changes
             !! "Z2"%string)
  ∧ "Z2"%string ≠ ""%string
  ∧ ∃ key zone, sample_zones !! key = Some zone
                ∧ "Z2"%string = StringValue (zone_Id zone).
Proof.
  assert (is_Some (@changesByZone range_canonical sample_zones sample_changes
                     !! "Z2"%string)) as Hsome.
  { exists [sample_c1]. by vm_compute. }
  split; [exact Hsome|].
  by apply (@changesByZone_bucket_keys range_canonical sample_zones
              sample_changes).
Defined.

Lemma Zones_filtered_witness :
  @Zones unit rejecting_provider (tt, []) = ((tt, []), inl sample_zones)
  ∧ ∀ key zone, sample_zones !! key = Some zone →
      zone ∈ concat (ListHostedZonesPages (client rejecting_provider) tt).1.2
      ∧ zoneTypeFilter rejecting_provider zone = true
      ∧ domainFilter rejecting_provider (StringValue (zone_Name zone)) = true
      ∧ StringValue (zone_Id zone) = key.
Proof.
  assert (@Zones unit rejecting_provider (tt, [])
          = ((tt, []), inl sample_zones)) as HZ by (by vm_compute).
  split; [exact HZ|].
  apply (proj1 (proj2 (proj2 (Zones_filtered rejecting_provider (tt, [])
                                (tt, []) sample_zones HZ)))).
Defined.

Lemma submitChanges_dryRun_witness :
  (dryRun dry_provider = true ∧ sample_changes ≠ []
   ∧ @Zones unit dry_provider (tt, []) = ((tt, []), inl sample_zones))
  ∧ (@submitChanges unit range_canonical dry_provider sample_changes
       (tt, [])).2 = Returned None
  ∧ calls_of (@submitChanges unit range_canonical dry_provider sample_changes
                (tt, [])).1.2 = calls_of [].
Proof.
  assert (@Zones unit dry_provider (tt, []) = ((tt, []), inl sample_zones))
    as HZ by (by vm_compute).
  split; [by split_and!|].
  destruct (@submitChanges_dryRun unit range_canonical dry_provider
              sample_changes (tt, []) (tt, []) sample_zones
              eq_refl ltac:(done) HZ) as (Hnil & _ & Hcalls & _).
  split; [exact Hnil|exact Hcalls].
Defined.

Lemma submitChanges_listing_error_witness :
  (sample_changes ≠ []
   ∧ (ListHostedZonesPages (client unreachable_provider) tt).2
     = Some "RequestError"%string)
  ∧ @submitChanges unit range_canonical unreachable_provider sample_changes
      (tt, [])
    = ((tt, []), Returned (Some "RequestError"%string)).
Proof.
  split; [by split|].
  by apply (@submitChanges_listing_error unit range_canonical
              unreachable_provider sample_changes (tt, [])).
Defined.

Lemma Records_endpoints_witness :
  ∃ w1 zones,
    @Zones unit rejecting_provider (tt, []) = (w1, inl zones)
    ∧ flat_map
        (endpoints_of sample_supportedRecordType sample_NewEndpointWithTTL)
        (sample_record_sets ++ sample_record_sets)
      = flat_map
          (endpoints_of sample_supportedRecordType sample_NewEndpointWithTTL)
          (Records_listed sample_listing (@range range_canonical _ zones) w1.1)
    ∧ (tt, @nil Event).2 = (tt, @nil Event).2.
Proof.
  apply (@Records_endpoints unit range_canonical sample_supportedRecordType
           sample_NewEndpointWithTTL sample_listing rejecting_provider
           (tt, []) (tt, [])).
  by vm_compute.
Defined.

Lemma Records_error_witness :
  @Zones unit rejecting_provider (tt, [])
  = ((tt, []), inr "AccessDenied"%string)
  ∨ ∃ w1 zones key zone service0,
      @Zones unit rejecting_provider (tt, []) = (w1, inl zones)
      ∧ zones !! key = Some zone
      ∧ (denied_listing (zone_Id zone) service0).2 = Some "AccessDenied"%string.
Proof.
  apply (@Records_error unit range_canonical sample_supportedRecordType
           sample_NewEndpointWithTTL denied_listing rejecting_provider
           (tt, []) (tt, [])).
  by vm_compute.
Defined.

Lemma newChange_read_back_witness :
  sample_supportedRecordType
    (Type_ (@newChange sample_IsConfigured range_canonical ChangeActionCreate
              sample_elb_endpoint)) = true
  ∧ Records_visit sample_supportedRecordType sample_NewEndpointWithTTL []
      (ResourceRecordSet_of
         (@newChange sample_IsConfigured range_canonical ChangeActionCreate
            sample_elb_endpoint))
    = [ {| DNSName := "app.example.org";
           Target := "lb-1234.eu-west-1.elb.amazonaws.com";
           RecordType := "CNAME"; RecordTTL := 0 |} ].
Proof.
  split; [by vm_compute|].
  by apply (proj1 (@newChange_read_back range_canonical sample_IsConfigured
                     sample_supportedRecordType sample_NewEndpointWithTTL
                     ChangeActionCreate sample_elb_endpoint)).
Defined.

Lemma ApplyChanges_nothing_to_do_witness :
  @ApplyChanges unit range_canonical sample_IsConfigured rejecting_provider
    {| Create := []; UpdateOld := [sample_plain_endpoint]; UpdateNew := [];
       Delete := [] |} (tt, [])
  = ((tt, [LogInfo_UpToDate]), Returned None).
Proof.
  by apply (@ApplyChanges_nothing_to_do unit range_canonical
              sample_IsConfigured rejecting_provider).
Defined.
